(** * BinParser: a bit-level reader over a byte buffer

    Shallow embedding of [src/BinParser.c] (with the struct and the
    [BIN_PARSER_ADVANCE_POS] macro of [src/include/BinParser_local.h]) and
    the properties of the cursor arithmetic, the fixed-width readers, the
    sign extension and the Exp-Golomb decoder.

    Conventions of the embedding.
    - [unsigned int] and [uint32_t] are 32 bits wide, [uint64_t] is 64 bits
      wide; values are integers of [Z] and every C operation that can wrap
      is written with [wrap32] or [wrap64].
    - The buffer [buf] is the list of the bytes the pointer designates; a
      read at an index outside the list is undefined behaviour and is
      reported as [Undef OutOfBounds].
    - A shift whose count or result C leaves undefined is reported as
      [Undef BadShift].
    - The only loop without a counter, the prefix scan of [getGlm], runs
      on fuel; [Diverge] is the outcome of a scan that never ends.
    - A C function returning [int] returns [Ok v st] for [return 0] (with
      the value [v] stored through the out pointer and the object left in
      state [st]) and [Err c st] for [return c] with [c <> 0]. *)

From Stdlib Require Import ZArith List Bool Lia.
Import ListNotations.
Local Open Scope Z_scope.

(** ** Machine integers *)

Definition wrap32 (x : Z) : Z := x mod 2 ^ 32.
Definition wrap64 (x : Z) : Z := x mod 2 ^ 64.

(** Conversion of a [uint32_t] (resp. [uint64_t]) value to [int32_t]
    (resp. [int64_t]): two's complement. *)
Definition to_int32 (x : Z) : Z := if x <? 2 ^ 31 then x else x - 2 ^ 32.
Definition to_int64 (x : Z) : Z := if x <? 2 ^ 63 then x else x - 2 ^ 64.

(** [~x] on [uint32_t] and on [uint64_t]. *)
Definition not32 (x : Z) : Z := wrap32 (Z.lnot x).
Definition not64 (x : Z) : Z := wrap64 (Z.lnot x).

(** ** The object *)

(** [struct BinParser_]. *)
Record BinParser : Type := mkBinParser {
  buf     : list Z;   (* uint8_t *buf      *)
  bufLen  : Z;        (* uint64_t bufLen   *)
  posByte : Z;        (* uint64_t posByte  *)
  posBit  : Z         (* unsigned int posBit *)
}.

(** ** Outcomes *)

Inductive undefined : Type :=
| OutOfBounds   (* buf[i] with i outside the buffer *)
| BadShift      (* shift count not below the width, or 1 << n not an int *)
| DivByZero.    (* x % 0 *)

Inductive exec (A : Type) : Type :=
| Def (a : A)
| Undef (u : undefined)
| Diverge.
Arguments Def {A} a.
Arguments Undef {A} u.
Arguments Diverge {A}.

Definition bind {A B : Type} (c : exec A) (k : A -> exec B) : exec B :=
  match c with
  | Def a => k a
  | Undef u => Undef u
  | Diverge => Diverge
  end.

Notation "x <- c ;; k" := (bind c (fun x => k))
  (at level 61, c at next level, right associativity).

Inductive ret (A : Type) : Type :=
| Ok (v : A) (st : BinParser)
| Err (code : Z) (st : BinParser).
Arguments Ok {A} v st.
Arguments Err {A} code st.

(** The [int] a call returns. *)
Definition status {A : Type} (r : ret A) : Z :=
  match r with
  | Ok _ _ => 0
  | Err c _ => c
  end.

(** The state a call leaves the object in. *)
Definition state_of {A : Type} (r : ret A) : BinParser :=
  match r with
  | Ok _ st => st
  | Err _ st => st
  end.

(** ** Buffer access *)

(** [b[i]]. *)
Definition load (b : list Z) (i : Z) : exec Z :=
  if i <? 0 then Undef OutOfBounds
  else match nth_error b (Z.to_nat i) with
       | Some x => Def x
       | None => Undef OutOfBounds
       end.

(** [(buf[posByte] >> (7 - posBit)) & 0x1]; the count [7 - posBit] is an
    [unsigned int]. *)
Definition bit_at (b : list Z) (pByte pBit : Z) : exec Z :=
  x <- load b pByte ;;
  let count := wrap32 (7 - pBit) in
  if 32 <=? count then Undef BadShift
  else Def (Z.land (Z.shiftr x count) 1).

(** The two statements that move a local [unsigned int] cursor one bit on:
    [posByte += (posBit + 1) >> 3; posBit = (posBit + 1) & 0x7;]. *)
Definition next_byte (pByte pBit : Z) : Z :=
  wrap32 (pByte + Z.shiftr (wrap32 (pBit + 1)) 3).
Definition next_bit (pBit : Z) : Z :=
  Z.land (wrap32 (pBit + 1)) 7.

(** [tmpVal = (tmpVal << 1) | bit] on a [uint32_t]. *)
Definition push_bit (tmpVal bit : Z) : Z :=
  Z.lor (wrap32 (Z.shiftl tmpVal 1)) bit.

(** ** Helpers of the source *)

(** [BIN_PARSER_ADVANCE_POS(bytes, bits)]. *)
Definition BIN_PARSER_ADVANCE_POS (st : BinParser) (bytes bits : Z) : BinParser :=
  let p1 := wrap64 (posByte st + bytes) in
  let p2 := wrap64 (p1 + Z.shiftr (wrap32 (posBit st + bits)) 3) in
  {| buf := buf st; bufLen := bufLen st;
     posByte := p2;
     posBit := Z.land (wrap32 (posBit st + bits)) 7 |}.

Definition hasRest (pByte pBit bytes bits len : Z) : bool :=
  let nextByte := wrap32 (wrap64 (pByte + bytes + Z.shiftr (wrap32 (pBit + bits)) 3)) in
  let nextBit := Z.land (wrap32 (pBit + bits)) 7 in
  if nextByte <? len then true
  else if (nextByte =? len) && (nextBit =? 0) then true
  else false.

Definition isInBuf (pByte len : Z) : bool :=
  if pByte <? len then true else false.

Definition isByteAligned (st : BinParser) : bool := posBit st =? 0.

Definition castInt32 (val width : Z) : exec Z :=
  if 64 <=? width then Undef BadShift else
  let mask := wrap32 (wrap64 (Z.shiftl 1 width - 1)) in
  let count := wrap32 (width - 1) in
  if 32 <=? count then Undef BadShift else
  if negb (Z.land (Z.shiftr val count) 1 =? 0)
  then Def (to_int32 (Z.lor (not32 mask) (Z.land val mask)))
  else Def (to_int32 (Z.land val mask)).

Definition castInt64 (val width : Z) : exec Z :=
  if 64 <=? width then Undef BadShift else
  let mask := wrap64 (Z.shiftl 1 width - 1) in
  let count := wrap32 (width - 1) in
  if 64 <=? count then Undef BadShift else
  if negb (Z.land (Z.shiftr val count) 1 =? 0)
  then Def (to_int64 (Z.lor (not64 mask) (Z.land val mask)))
  else Def (to_int64 (Z.land val mask)).

(** ** Readers *)

Definition getBool (st : BinParser) : exec (ret bool) :=
  if negb (hasRest (posByte st) (posBit st) 0 1 (bufLen st)) then Def (Err 1 st)
  else
    bit <- bit_at (buf st) (posByte st) (posBit st) ;;
    Def (Ok (negb (bit =? 0)) (BIN_PARSER_ADVANCE_POS st 0 1)).

(** The loop of [getUInt32] and of [getUInt64]: in both functions the
    cursor copies [posByte], [posBit] are [unsigned int] and the
    accumulator [tmpVal] is declared [uint32_t]. *)
Fixpoint read_bits (n : nat) (b : list Z) (pByte pBit tmpVal : Z) : exec Z :=
  match n with
  | O => Def tmpVal
  | S n' =>
      bit <- bit_at b pByte pBit ;;
      read_bits n' b (next_byte pByte pBit) (next_bit pBit) (push_bit tmpVal bit)
  end.

Definition getUInt32 (st : BinParser) (bits : Z) : exec (ret Z) :=
  if bits =? 0 then Def (Ok 0 st)
  else if negb (hasRest (posByte st) (posBit st) 0 bits (bufLen st)) then Def (Err 1 st)
  else
    tmpVal <- read_bits (Z.to_nat bits) (buf st) (wrap32 (posByte st)) (posBit st) 0 ;;
    Def (Ok tmpVal (BIN_PARSER_ADVANCE_POS st 0 bits)).

Definition getUInt64 (st : BinParser) (bits : Z) : exec (ret Z) :=
  if bits =? 0 then Def (Ok 0 st)
  else if negb (hasRest (posByte st) (posBit st) 0 bits (bufLen st)) then Def (Err 1 st)
  else
    (* uint32_t tmpVal = 0; ... *val = tmpVal; *)
    tmpVal <- read_bits (Z.to_nat bits) (buf st) (wrap32 (posByte st)) (posBit st) 0 ;;
    Def (Ok tmpVal (BIN_PARSER_ADVANCE_POS st 0 bits)).

Definition getInt32 (st : BinParser) (bits : Z) : exec (ret Z) :=
  r <- getUInt32 st bits ;;
  match r with
  | Err c st' => Def (Err c st')
  | Ok tmpVal st' => v <- castInt32 tmpVal bits ;; Def (Ok v st')
  end.

Definition getInt64 (st : BinParser) (bits : Z) : exec (ret Z) :=
  r <- getUInt64 st bits ;;
  match r with
  | Err c st' => Def (Err c st')
  | Ok tmpVal st' => v <- castInt64 tmpVal bits ;; Def (Ok v st')
  end.

(** The copy loop of [BinParser_getBytes]; its index [posByte] is a local
    [unsigned int]. *)
Fixpoint copy_bytes (n : nat) (b : list Z) (pByte : Z) : exec (list Z) :=
  match n with
  | O => Def []
  | S n' =>
      x <- load b pByte ;;
      rest <- copy_bytes n' b (wrap32 (pByte + 1)) ;;
      Def (x :: rest)
  end.

Definition BinParser_getBytes (st : BinParser) (bytes : Z) : exec (ret (list Z)) :=
  if negb (isByteAligned st) then Def (Err 1 st)
  else if negb (hasRest (posByte st) (posBit st) bytes 0 (bufLen st)) then Def (Err 1 st)
  else
    val <- copy_bytes (Z.to_nat bytes) (buf st) (wrap32 (posByte st)) ;;
    Def (Ok val (BIN_PARSER_ADVANCE_POS st bytes 0)).

(** ** Exp-Golomb *)

(** The prefix loop [while(posByte < obj->bufLen)].  The result is [None]
    when the loop body executes its [return 1], and the local variables
    [(posByte, posBit, zeros)] when the loop is left by its condition or by
    [break].  The loop has no counter: it is run on fuel. *)
Fixpoint glm_prefix (fuel : nat) (b : list Z) (len pByte pBit zeros : Z)
  : exec (option (Z * Z * Z)) :=
  match fuel with
  | O => Diverge
  | S fuel' =>
      if pByte <? len then
        if len <=? pByte then Def None
        else
          bit <- bit_at b pByte pBit ;;
          if bit =? 1 then Def (Some (pByte, pBit, zeros))
          else glm_prefix fuel' b len (next_byte pByte pBit) (next_bit pBit)
                          (wrap32 (zeros + 1))
      else Def (Some (pByte, pBit, zeros))
  end.

(** The suffix loop [for(i = 0; (i < zeros) && (posByte < obj->bufLen); i++)],
    with [n] the iterations [zeros - i] still allowed by the counter. *)
Fixpoint glm_suffix (n : nat) (b : list Z) (len pByte pBit tmpVal : Z)
  : exec (option (Z * Z * Z)) :=
  match n with
  | O => Def (Some (pByte, pBit, tmpVal))
  | S n' =>
      if pByte <? len then
        if len <=? pByte then Def None
        else
          bit <- bit_at b pByte pBit ;;
          glm_suffix n' b len (next_byte pByte pBit) (next_bit pBit)
                     (push_bit tmpVal bit)
      else Def (Some (pByte, pBit, tmpVal))
  end.

(** Fuel of the prefix loop: the number of tests of the loop condition
    a run is given.  From a bit offset outside [[0, 8)] the first
    iteration may leave the local cursor anywhere; from then on the bit
    offset is below 8 and every iteration moves the cursor one bit on,
    over the at most [8 * 2^32] positions a local cursor has.  When
    [bufLen < 2^32] the cursor then reaches [bufLen] within [8 * bufLen]
    iterations; otherwise [8 * bufLen >= 8 * 2^32] iterations visit every
    position it can take.  With the first iteration and the last test, a
    run that is still in the loop after [8 * bufLen + 2] tests never leaves
    it. *)
Definition glm_fuel (st : BinParser) : nat :=
  S (S (Z.to_nat (8 * bufLen st))).

Definition getGlm_from (fuel : nat) (st : BinParser) : exec (ret Z) :=
  r <- glm_prefix fuel (buf st) (bufLen st) (wrap32 (posByte st)) (posBit st) 0 ;;
  match r with
  | None => Def (Err 1 st)
  | Some (pByte, pBit, zeros) =>
      if bufLen st <=? pByte then Def (Err 1 st)
      else
        let pByte1 := next_byte pByte pBit in
        let pBit1 := next_bit pBit in
        r' <- glm_suffix (Z.to_nat zeros) (buf st) (bufLen st) pByte1 pBit1 0 ;;
        match r' with
        | None => Def (Err 1 st)
        | Some (pByte2, pBit2, tmpVal) =>
            (* tmpVal += ((1 << zeros) - 1); with 1 an int *)
            if 31 <=? zeros then Undef BadShift
            else
              Def (Ok (wrap32 (tmpVal + (Z.shiftl 1 zeros - 1)))
                      {| buf := buf st; bufLen := bufLen st;
                         posByte := pByte2; posBit := pBit2 |})
        end
  end.

Definition getGlm (st : BinParser) : exec (ret Z) :=
  getGlm_from (glm_fuel st) st.

(** [getSGlm], its call of [getGlm] run on [fuel]. *)
Definition getSGlm_from (fuel : nat) (st : BinParser) : exec (ret Z) :=
  r <- getGlm_from fuel st ;;
  match r with
  | Err c st' => Def (Err c st')
  | Ok tmpVal st' =>
      if negb (Z.land tmpVal 1 =? 0)
      then Def (Ok (to_int32 (wrap32 (Z.shiftr tmpVal 1 + 1))) st')
      else Def (Ok (to_int32 (wrap32 (- Z.shiftr tmpVal 1))) st')
  end.

Definition getSGlm (st : BinParser) : exec (ret Z) :=
  getSGlm_from (glm_fuel st) st.

(** ** Alignment and positioning *)

Definition alignByte (st : BinParser) : exec (ret unit) :=
  if negb (isInBuf (posByte st) (bufLen st)) then Def (Ok tt st)
  else if negb (posBit st =? 0)
  then Def (Ok tt {| buf := buf st; bufLen := bufLen st;
                     posByte := wrap64 (posByte st + 1); posBit := 0 |})
  else Def (Ok tt st).

Definition alignBytes (st : BinParser) (bytes : Z) : exec (ret unit) :=
  if bytes =? 0 then Def (Err 1 st)
  else if negb (isInBuf (posByte st) (bufLen st)) then Def (Ok tt st)
  else
    let rem := wrap32 (posByte st mod bytes) in
    if (rem =? 0) && (posBit st =? 0) then Def (Ok tt st)
    else
      let alignedByte := wrap32 (wrap64 (posByte st - rem + bytes)) in
      if negb (isInBuf alignedByte (bufLen st)) then Def (Err 1 st)
      else Def (Ok tt {| buf := buf st; bufLen := bufLen st;
                         posByte := alignedByte; posBit := 0 |}).

Definition isAligned (st : BinParser) (bytes : Z) : exec bool :=
  if bytes =? 0 then Undef DivByZero
  else
    let rem := wrap32 (posByte st mod bytes) in
    Def ((rem =? 0) && (posBit st =? 0)).

Definition seek_ (st : BinParser) (pByte pBit : Z) : exec (ret unit) :=
  if negb (isInBuf pByte (bufLen st)) then Def (Err 1 st)
  else Def (Ok tt {| buf := buf st; bufLen := bufLen st;
                     posByte := pByte; posBit := pBit |}).

Definition BinParser_skip (st : BinParser) (bytes bits : Z) : exec (ret unit) :=
  let nextPosByte :=
    wrap32 (wrap64 (posByte st + bytes + Z.shiftr (wrap32 (posBit st + bits)) 3)) in
  let nextPosBit := Z.land (wrap32 (posBit st + bits)) 7 in
  seek_ st nextPosByte nextPosBit.

(** [BinParser_new] (allocation left out): the object is zeroed, then
    given its buffer and length. *)
Definition BinParser_new (b : list Z) (len : Z) : BinParser :=
  {| buf := b; bufLen := len; posByte := 0; posBit := 0 |}.

Definition BinParser_reset (st : BinParser) (b : list Z) (len : Z) : exec (ret unit) :=
  Def (Ok tt {| buf := b; bufLen := len; posByte := 0; posBit := 0 |}).

(** [BinParser_getPos] stores the position through two [unsigned int]
    pointers. *)
Definition BinParser_getPos (st : BinParser) : exec (ret (Z * Z)) :=
  Def (Ok (wrap32 (posByte st), posBit st) st).

Definition BinParser_hasRest (st : BinParser) (bytes bits : Z) : bool :=
  hasRest (posByte st) (posBit st) bytes bits (bufLen st).

(** ** The public operations that return a status *)

Inductive op : Type :=
| OpReset (b : list Z) (len : Z)
| OpGetBool
| OpGetUInt32 (bits : Z)
| OpGetUInt64 (bits : Z)
| OpGetInt32 (bits : Z)
| OpGetInt64 (bits : Z)
| OpGetBytes (bytes : Z)
| OpGetGlm
| OpGetSGlm
| OpAlignByte
| OpAlignBytes (bytes : Z)
| OpSeek (pByte pBit : Z)
| OpSkip (bytes bits : Z)
| OpGetPos.

(** An argument declared [unsigned int] holds a value of that type. *)
Definition uint (x : Z) : Prop := 0 <= x < 2 ^ 32.

Definition op_typed (o : op) : Prop :=
  match o with
  | OpReset _ len => uint len
  | OpGetUInt32 n | OpGetUInt64 n | OpGetInt32 n | OpGetInt64 n
  | OpGetBytes n | OpAlignBytes n => uint n
  | OpSeek a b | OpSkip a b => uint a /\ uint b
  | OpGetBool | OpGetGlm | OpGetSGlm | OpAlignByte | OpGetPos => True
  end.

(** Status and final state of a call, the value read left out. *)
Definition forget {A : Type} (c : exec (ret A)) : exec (ret unit) :=
  r <- c ;;
  match r with
  | Ok _ st => Def (Ok tt st)
  | Err code st => Def (Err code st)
  end.

(** The public function of each operation: every [BinParser_x] of the
    source returns the result of the static function [x].  [run_from]
    gives the prefix scan of the Exp-Golomb reads [fuel] tests of its loop
    condition; [run] gives it the fuel [glm_fuel] after which a scan never
    ends. *)
Definition run_from (fuel : nat) (o : op) (st : BinParser) : exec (ret unit) :=
  match o with
  | OpReset b len => BinParser_reset st b len
  | OpGetBool => forget (getBool st)
  | OpGetUInt32 bits => forget (getUInt32 st bits)
  | OpGetUInt64 bits => forget (getUInt64 st bits)
  | OpGetInt32 bits => forget (getInt32 st bits)
  | OpGetInt64 bits => forget (getInt64 st bits)
  | OpGetBytes bytes => forget (BinParser_getBytes st bytes)
  | OpGetGlm => forget (getGlm_from fuel st)
  | OpGetSGlm => forget (getSGlm_from fuel st)
  | OpAlignByte => alignByte st
  | OpAlignBytes bytes => alignBytes st bytes
  | OpSeek pByte pBit => seek_ st pByte pBit
  | OpSkip bytes bits => BinParser_skip st bytes bits
  | OpGetPos => forget (BinParser_getPos st)
  end.

Definition run (o : op) (st : BinParser) : exec (ret unit) :=
  run_from (glm_fuel st) o st.

(** ** The data model of the specification

    The definitions from here on are not functions of the source: they
    state the reader's invariant, the bits of the buffer and the
    Exp-Golomb code in the words of the specification, and the conditions
    under which the properties below hold. *)

(** The cursor invariant: [bitPos] in [[0, 8)], and [bytePos < length] or
    the end state [bytePos = length, bitPos = 0].  [0 <= posByte] says that
    the field is unsigned. *)
Definition cursor_inv (st : BinParser) : Prop :=
  0 <= posByte st /\ 0 <= posBit st < 8 /\
  (posByte st < bufLen st \/ (posByte st = bufLen st /\ posBit st = 0)).

(** [bufLen] is the number of bytes of the buffer. *)
Definition buffer_ok (st : BinParser) : Prop :=
  bufLen st = Z.of_nat (length (buf st)).

(** The cursor as a bit offset from the start of the buffer. *)
Definition bit_offset (st : BinParser) : Z := 8 * posByte st + posBit st.

(** The state with the cursor at bit offset [k]. *)
Definition at_offset (st : BinParser) (k : Z) : BinParser :=
  {| buf := buf st; bufLen := bufLen st; posByte := k / 8; posBit := k mod 8 |}.

(** Bit [k] of the buffer, most significant bit of each byte first;
    [None] outside the buffer. *)
Definition buffer_bit (b : list Z) (k : Z) : option bool :=
  if k <? 0 then None
  else match nth_error b (Z.to_nat (k / 8)) with
       | Some x => Some (Z.testbit x (7 - k mod 8))
       | None => None
       end.

(** The number whose binary digits, most significant first, are [bs]. *)
Fixpoint msb_value (bs : list bool) : Z :=
  match bs with
  | [] => 0
  | c :: cs => Z.b2z c * 2 ^ Z.of_nat (length cs) + msb_value cs
  end.

(** The bits [bs] are in the buffer from bit offset [k] on. *)
Fixpoint bits_at (b : list Z) (k : Z) (bs : list bool) : Prop :=
  match bs with
  | [] => True
  | c :: cs => buffer_bit b k = Some c /\ bits_at b (k + 1) cs
  end.

(** The [n] low bits of [x], most significant first. *)
Fixpoint msb_bits (n : nat) (x : Z) : list bool :=
  match n with
  | O => []
  | S n' => Z.testbit x (Z.of_nat n') :: msb_bits n' x
  end.

(** The Exp-Golomb code with [zeros] prefix bits and suffix value
    [suffix]: [zeros] 0-bits, a 1-bit, then the [zeros] bits of the
    suffix. *)
Definition glm_code (zeros : nat) (suffix : Z) : list bool :=
  repeat false zeros ++ true :: msb_bits zeros suffix.

(** The Exp-Golomb code of the value [v >= 0]: the prefix length is the
    [zeros] with [2^zeros - 1 <= v < 2^(zeros+1) - 1]. *)
Definition glm_zeros (v : Z) : nat := Z.to_nat (Z.log2 (v + 1)).
Definition glm_encode (v : Z) : list bool :=
  glm_code (glm_zeros v) (v + 1 - 2 ^ Z.of_nat (glm_zeros v)).


(** The byte position the capacity check [hasRest] computes for a read of
    [bytes] bytes and [bits] bits fits the [unsigned int nextByte] it is
    stored in. *)
Definition no_wrap (st : BinParser) (bytes bits : Z) : Prop :=
  posByte st + bytes + wrap32 (posBit st + bits) / 8 < 2 ^ 32.

(** The calls the cursor invariant is stated for: a seek to a bit offset
    below 8, and capacity-checked reads whose capacity check does not
    wrap. *)
Definition within_range (o : op) (st : BinParser) : Prop :=
  match o with
  | OpSeek _ pBit => pBit < 8
  | OpGetBool => no_wrap st 0 1
  | OpGetUInt32 bits | OpGetUInt64 bits
  | OpGetInt32 bits | OpGetInt64 bits => no_wrap st 0 bits
  | OpGetBytes bytes => no_wrap st bytes 0
  | OpReset _ _ | OpGetGlm | OpGetSGlm | OpAlignByte
  | OpAlignBytes _ | OpSkip _ _ | OpGetPos => True
  end.

(** The cursor invariant on the local copies [(posByte, posBit)] of
    [getGlm], which are [unsigned int]. *)
Definition local_inv (len pByte pBit : Z) : Prop :=
  0 <= pByte < 2 ^ 32 /\ 0 <= pBit < 8 /\
  (pByte < len \/ (pByte = len /\ pBit = 0)).

(** The signed value of the unsigned Exp-Golomb value [u]:
    [(u >> 1) + 1] when [u] is odd, [-(u >> 1)] when [u] is even. *)
Definition signed_of (u : Z) : Z :=
  if Z.odd u then Z.shiftr u 1 + 1 else - Z.shiftr u 1.

(** The capacity check of the call computes with the exact numbers: the
    bit count [posBit + bits] and the next byte position both fit 32
    bits. *)
Definition exact_capacity (o : op) (st : BinParser) : Prop :=
  match o with
  | OpGetBool => no_wrap st 0 1
  | OpGetUInt32 bits | OpGetUInt64 bits
  | OpGetInt32 bits | OpGetInt64 bits =>
      posBit st + bits < 2 ^ 32 /\ no_wrap st 0 bits
  | OpGetBytes bytes => no_wrap st bytes 0
  | OpReset _ _ | OpGetGlm | OpGetSGlm | OpAlignByte
  | OpAlignBytes _ | OpSeek _ _ | OpSkip _ _ | OpGetPos => True
  end.

(** The unsigned Exp-Golomb value that the signed read maps to [s]:
    [2 s - 1] for [s > 0] and [- 2 s] for [s <= 0]. *)
Definition unsigned_of (s : Z) : Z :=
  if 0 <? s then 2 * s - 1 else - (2 * s).

(** The number that the bits [bs], most significant first, denote in
    two's complement: the first bit counts negatively. *)
Definition twos_value (bs : list bool) : Z :=
  msb_value bs - Z.b2z (hd false bs) * 2 ^ Z.of_nat (length bs).
(** * Properties *)

(** ** Arithmetic of the cursor and of the accumulators *)

Ltac Zify.zify_post_hook ::= Z.to_euclidean_division_equations.

Ltac split_ifs H :=
  repeat match type of H with
         | context [if ?c then _ else _] => destruct c
         | context [match ?c with _ => _ end] => destruct c
         end.

Ltac err_same := let H := fresh "H" in intros H; split_ifs H; congruence.

Ltac pow_literals :=
  change (2 ^ 32) with 4294967296 in *;
  change (2 ^ 64) with 18446744073709551616 in *;
  change (2 ^ 31) with 2147483648 in *;
  change (2 ^ 63) with 9223372036854775808 in *.

Lemma wrap32_range (x : Z) : 0 <= wrap32 x < 2 ^ 32.
Proof. unfold wrap32. apply Z.mod_pos_bound. reflexivity. Qed.

Lemma wrap32_small (x : Z) : 0 <= x < 2 ^ 32 -> wrap32 x = x.
Proof. unfold wrap32. intros H. apply Z.mod_small. exact H. Qed.

Lemma wrap32_le (x : Z) : 0 <= x -> wrap32 x <= x.
Proof. unfold wrap32. intros H. apply Z.mod_le; [exact H | reflexivity]. Qed.

Lemma wrap64_small (x : Z) : 0 <= x < 2 ^ 64 -> wrap64 x = x.
Proof. unfold wrap64. intros H. apply Z.mod_small. exact H. Qed.

Lemma wrap32_wrap64 (x : Z) : wrap32 (wrap64 x) = wrap32 x.
Proof. unfold wrap32, wrap64. pow_literals. lia. Qed.

Lemma shiftr3 (x : Z) : Z.shiftr x 3 = x / 8.
Proof. rewrite Z.shiftr_div_pow2 by lia. reflexivity. Qed.

Lemma land7 (x : Z) : Z.land x 7 = x mod 8.
Proof. change 7 with (Z.ones 3). rewrite Z.land_ones by lia. reflexivity. Qed.

Lemma land1 (x : Z) : Z.land x 1 = x mod 2.
Proof. change 1 with (Z.ones 1) at 1. rewrite Z.land_ones by lia. reflexivity. Qed.

Lemma land1_testbit (x c : Z) :
  0 <= c -> Z.land (Z.shiftr x c) 1 = Z.b2z (Z.testbit x c).
Proof.
  intros Hc. rewrite land1, <- Z.bit0_mod, Z.shiftr_spec by lia.
  reflexivity.
Qed.

Lemma land1_bit (x : Z) : Z.land x 1 = 0 \/ Z.land x 1 = 1.
Proof. rewrite land1. lia. Qed.

Lemma lor_even_bit (x c : Z) : c = 0 \/ c = 1 -> Z.lor (2 * x) c = 2 * x + c.
Proof.
  intros [-> | ->].
  - rewrite Z.lor_0_r. lia.
  - assert (H : Z.land (2 * x) 1 = 0) by (rewrite land1; lia).
    rewrite <- Z.lxor_lor by exact H.
    symmetry. apply Z.add_nocarry_lxor. exact H.
Qed.

Lemma push_bit_eq (tmpVal c : Z) :
  c = 0 \/ c = 1 -> push_bit tmpVal c = 2 * (tmpVal mod 2 ^ 31) + c.
Proof.
  intros Hc. unfold push_bit, wrap32.
  rewrite Z.shiftl_mul_pow2 by lia.
  replace (tmpVal * 2 ^ 1 mod 2 ^ 32) with (2 * (tmpVal mod 2 ^ 31))
    by (pow_literals; lia).
  apply lor_even_bit. exact Hc.
Qed.

Lemma next_bit_eq (pBit : Z) : 0 <= pBit < 8 -> next_bit pBit = (pBit + 1) mod 8.
Proof.
  intros H. unfold next_bit. rewrite land7, wrap32_small by (pow_literals; lia).
  reflexivity.
Qed.

Lemma next_byte_eq (pByte pBit : Z) :
  0 <= pBit < 8 -> next_byte pByte pBit = wrap32 (pByte + (pBit + 1) / 8).
Proof.
  intros H. unfold next_byte.
  rewrite shiftr3, (wrap32_small (pBit + 1)) by (pow_literals; lia).
  reflexivity.
Qed.

(** The bit the code extracts is the bit of the data model. *)
Lemma bit_at_buffer_bit (b : list Z) (pByte pBit : Z) :
  0 <= pByte -> 0 <= pBit < 8 ->
  bit_at b pByte pBit =
  match buffer_bit b (8 * pByte + pBit) with
  | Some c => Def (Z.b2z c)
  | None => Undef OutOfBounds
  end.
Proof.
  intros Hp Hb. unfold bit_at, buffer_bit, load, bind.
  replace ((8 * pByte + pBit) / 8) with pByte by lia.
  replace ((8 * pByte + pBit) mod 8) with pBit by lia.
  destruct (Z.ltb_spec pByte 0); [lia |].
  destruct (Z.ltb_spec (8 * pByte + pBit) 0); [lia |].
  destruct (nth_error b (Z.to_nat pByte)) as [x |]; [| reflexivity].
  rewrite wrap32_small by (pow_literals; lia).
  destruct (Z.leb_spec 32 (7 - pBit)); [lia |].
  rewrite land1_testbit by lia. reflexivity.
Qed.

Lemma bit_at_is_bit (b : list Z) (pByte pBit c : Z) :
  bit_at b pByte pBit = Def c -> c = 0 \/ c = 1.
Proof.
  unfold bit_at, bind. destruct (load b pByte); try discriminate.
  destruct (32 <=? wrap32 (7 - pBit)); try discriminate.
  intros H. injection H as <-. apply land1_bit.
Qed.

Lemma load_Def (b : list Z) (i x : Z) :
  load b i = Def x -> 0 <= i < Z.of_nat (length b).
Proof.
  unfold load. destruct (Z.ltb_spec i 0); [discriminate |].
  destruct (nth_error b (Z.to_nat i)) eqn:E; [| discriminate].
  intros _. assert (Hn : nth_error b (Z.to_nat i) <> None) by congruence.
  apply nth_error_Some in Hn. lia.
Qed.

Lemma load_Undef (b : list Z) (i : Z) :
  Z.of_nat (length b) <= i -> load b i = Undef OutOfBounds.
Proof.
  intros H. unfold load. destruct (Z.ltb_spec i 0); [reflexivity |].
  destruct (nth_error b (Z.to_nat i)) eqn:E; [| reflexivity].
  assert (Hn : nth_error b (Z.to_nat i) <> None) by congruence.
  apply nth_error_Some in Hn. lia.
Qed.

(** ** Failed calls *)

Section FailedCalls.
Variables (st st' : BinParser) (c : Z).

Lemma getBool_err : getBool st = Def (Err c st') -> st' = st.
Proof. unfold getBool, bind. err_same. Qed.

Lemma getUInt32_err bits : getUInt32 st bits = Def (Err c st') -> st' = st.
Proof. unfold getUInt32, bind. err_same. Qed.

Lemma getUInt64_err bits : getUInt64 st bits = Def (Err c st') -> st' = st.
Proof. unfold getUInt64, bind. err_same. Qed.

Lemma getInt32_err bits : getInt32 st bits = Def (Err c st') -> st' = st.
Proof.
  unfold getInt32. destruct (getUInt32 st bits) as [[v s | c' s] | u |] eqn:E;
    simpl; try discriminate.
  - destruct (castInt32 v bits); simpl; discriminate.
  - intros H. injection H as -> ->. revert E. apply getUInt32_err.
Qed.

Lemma getInt64_err bits : getInt64 st bits = Def (Err c st') -> st' = st.
Proof.
  unfold getInt64. destruct (getUInt64 st bits) as [[v s | c' s] | u |] eqn:E;
    simpl; try discriminate.
  - destruct (castInt64 v bits); simpl; discriminate.
  - intros H. injection H as -> ->. revert E. apply getUInt64_err.
Qed.

Lemma getBytes_err bytes : BinParser_getBytes st bytes = Def (Err c st') -> st' = st.
Proof. unfold BinParser_getBytes, bind. err_same. Qed.

Lemma getGlm_from_err fuel : getGlm_from fuel st = Def (Err c st') -> st' = st.
Proof. unfold getGlm_from, bind. err_same. Qed.

Lemma getGlm_err : getGlm st = Def (Err c st') -> st' = st.
Proof. apply getGlm_from_err. Qed.

Lemma getSGlm_from_err fuel : getSGlm_from fuel st = Def (Err c st') -> st' = st.
Proof.
  unfold getSGlm_from.
  destruct (getGlm_from fuel st) as [[v s | c' s] | u |] eqn:E;
    simpl; try discriminate.
  - destruct (negb (Z.land v 1 =? 0)); discriminate.
  - intros H. injection H as -> ->. revert E. apply getGlm_from_err.
Qed.

Lemma getSGlm_err : getSGlm st = Def (Err c st') -> st' = st.
Proof. apply getSGlm_from_err. Qed.

Lemma alignByte_err : alignByte st = Def (Err c st') -> st' = st.
Proof. unfold alignByte. err_same. Qed.

Lemma alignBytes_err bytes : alignBytes st bytes = Def (Err c st') -> st' = st.
Proof. unfold alignBytes. err_same. Qed.

Lemma seek_err pByte pBit : seek_ st pByte pBit = Def (Err c st') -> st' = st.
Proof. unfold seek_. err_same. Qed.

Lemma forget_err {A : Type} (call : exec (ret A)) :
  (forall c1 s1, call = Def (Err c1 s1) -> s1 = st) ->
  forget call = Def (Err c st') -> st' = st.
Proof.
  intros Hcall. unfold forget. destruct call as [[v s | c' s] | u |];
    simpl; try discriminate.
  intros H. injection H as -> ->. eapply Hcall. reflexivity.
Qed.
End FailedCalls.

(** C3. Every public operation that returns an error leaves the reader
    (buffer, length, byte position, bit position) exactly as it was before
    the call, whatever the starting state and however many tests the
    prefix scan of the Exp-Golomb reads makes ([run o st] is
    [run_from (glm_fuel st) o st]).  This includes the unsigned Exp-Golomb
    read: [getGlm] scans with local copies of the cursor and writes the
    object only before its [return 0]. *)
Theorem error_leaves_state_unchanged (fuel : nat) (o : op) (st st' : BinParser) (c : Z) :
  run_from fuel o st = Def (Err c st') -> st' = st.
Proof.
  destruct o; simpl.
  - unfold BinParser_reset. discriminate.
  - apply forget_err. intros c1 s1. apply getBool_err.
  - apply forget_err. intros c1 s1. apply getUInt32_err.
  - apply forget_err. intros c1 s1. apply getUInt64_err.
  - apply forget_err. intros c1 s1. apply getInt32_err.
  - apply forget_err. intros c1 s1. apply getInt64_err.
  - apply forget_err. intros c1 s1. apply getBytes_err.
  - apply forget_err. intros c1 s1. apply getGlm_from_err.
  - apply forget_err. intros c1 s1. apply getSGlm_from_err.
  - apply alignByte_err.
  - apply alignBytes_err.
  - apply seek_err.
  - unfold BinParser_skip. apply seek_err.
  - unfold BinParser_getPos. discriminate.
Qed.

(** The unsigned Exp-Golomb read of one zero byte from the bit offset
    [2^32 - 1] finds no terminating 1-bit in the ten tests of its scan: it
    fails, and the cursor stays where it was. *)
Lemma error_leaves_state_unchanged_witness :
  run OpGetGlm (mkBinParser [0] 1 0 4294967295)
  = Def (Err 1 (mkBinParser [0] 1 0 4294967295)) /\
  mkBinParser [0] 1 0 4294967295 = mkBinParser [0] 1 0 4294967295.
Proof.
  split.
  - vm_compute. reflexivity.
  - apply (error_leaves_state_unchanged
             (glm_fuel (mkBinParser [0] 1 0 4294967295)) OpGetGlm
             (mkBinParser [0] 1 0 4294967295) _ 1).
    vm_compute. reflexivity.
Defined.

(** ** The byte-run read *)

(** C4, as the code has it. On a cursor that is not byte-aligned
    [BinParser_getBytes] fails for every byte count: it returns the status
    1 and leaves the state unchanged.  The status 1 is also what it
    returns on an aligned cursor when the capacity check fails, so the
    status does not tell the two failures apart. *)
Theorem getBytes_unaligned_fails (st : BinParser) (bytes : Z) :
  posBit st <> 0 ->
  BinParser_getBytes st bytes = Def (Err 1 st) /\
  (forall st2 bytes2,
      posBit st2 = 0 ->
      BinParser_hasRest st2 bytes2 0 = false ->
      BinParser_getBytes st2 bytes2 = Def (Err 1 st2)).
Proof.
  intros Hbit. split.
  - unfold BinParser_getBytes, isByteAligned.
    destruct (Z.eqb_spec (posBit st) 0); [contradiction | reflexivity].
  - intros st2 bytes2 Hal Hrest. unfold BinParser_getBytes, isByteAligned.
    unfold BinParser_hasRest in Hrest. rewrite Hal in *. simpl.
    rewrite Hrest. reflexivity.
Qed.

Lemma getBytes_unaligned_fails_witness :
  BinParser_getBytes (mkBinParser [170; 85] 2 0 3) 1
  = Def (Err 1 (mkBinParser [170; 85] 2 0 3)) /\
  BinParser_getBytes (mkBinParser [170; 85] 2 1 0) 2
  = Def (Err 1 (mkBinParser [170; 85] 2 1 0)).
Proof.
  assert (H : posBit (mkBinParser [170; 85] 2 0 3) <> 0) by (simpl; lia).
  split.
  - apply (proj1 (getBytes_unaligned_fails (mkBinParser [170; 85] 2 0 3) 1 H)).
  - apply (proj2 (getBytes_unaligned_fails (mkBinParser [170; 85] 2 0 3) 1 H)).
    + reflexivity.
    + reflexivity.
Defined.

(** C4, as stated, fails: the failure on a non-aligned cursor and the
    failure on an aligned cursor with too few bytes left return the same
    status. *)
Lemma getBytes_errors_not_distinct :
  ~ (forall st1 bytes1 st2 bytes2 r1 r2,
        posBit st1 <> 0 ->
        posBit st2 = 0 ->
        BinParser_hasRest st2 bytes2 0 = false ->
        BinParser_getBytes st1 bytes1 = Def r1 ->
        BinParser_getBytes st2 bytes2 = Def r2 ->
        status r1 <> status r2).
Proof.
  intros H.
  apply (H (mkBinParser [170; 85] 2 0 3) 1 (mkBinParser [170; 85] 2 1 0) 2
           (Err 1 (mkBinParser [170; 85] 2 0 3))
           (Err 1 (mkBinParser [170; 85] 2 1 0))).
  - simpl. lia.
  - reflexivity.
  - reflexivity.
  - reflexivity.
  - reflexivity.
  - reflexivity.
Qed.

(** ** The cursor invariant *)

Lemma advance_inv (st : BinParser) (bytes bits : Z) :
  cursor_inv st -> 0 <= bytes -> no_wrap st bytes bits ->
  hasRest (posByte st) (posBit st) bytes bits (bufLen st) = true ->
  cursor_inv (BIN_PARSER_ADVANCE_POS st bytes bits).
Proof.
  unfold cursor_inv, no_wrap, hasRest, BIN_PARSER_ADVANCE_POS. simpl.
  intros (Hp & Hb & Hin) Hbytes Hfit.
  rewrite !shiftr3, !land7.
  pose proof (wrap32_range (posBit st + bits)) as Hw.
  set (w := wrap32 (posBit st + bits)) in *.
  assert (E1 : wrap64 (posByte st + bytes) = posByte st + bytes)
    by (apply wrap64_small; pow_literals; lia).
  assert (E2 : wrap64 (posByte st + bytes + w / 8) = posByte st + bytes + w / 8)
    by (apply wrap64_small; pow_literals; lia).
  rewrite E1, E2, wrap32_small by (pow_literals; lia).
  destruct (Z.ltb_spec (posByte st + bytes + w / 8) (bufLen st)).
  - intros _. lia.
  - destruct (Z.eqb_spec (posByte st + bytes + w / 8) (bufLen st)); simpl;
      [| discriminate].
    destruct (Z.eqb_spec (w mod 8) 0); [| discriminate].
    intros _. lia.
Qed.

Lemma local_inv_start (st : BinParser) :
  cursor_inv st -> local_inv (bufLen st) (wrap32 (posByte st)) (posBit st).
Proof.
  unfold cursor_inv, local_inv. intros (Hp & Hb & Hin).
  pose proof (wrap32_range (posByte st)). pose proof (wrap32_le (posByte st) Hp).
  lia.
Qed.

Lemma local_inv_next (len pByte pBit : Z) :
  local_inv len pByte pBit -> pByte < len ->
  local_inv len (next_byte pByte pBit) (next_bit pBit).
Proof.
  unfold local_inv. intros (Hp & Hb & Hin) Hlt.
  rewrite next_byte_eq, next_bit_eq by lia.
  pose proof (wrap32_range (pByte + (pBit + 1) / 8)).
  unfold wrap32 in *. pow_literals. lia.
Qed.

Lemma glm_prefix_inv (fuel : nat) (b : list Z) (len pByte pBit zeros p' b' z' : Z) :
  local_inv len pByte pBit ->
  glm_prefix fuel b len pByte pBit zeros = Def (Some (p', b', z')) ->
  local_inv len p' b'.
Proof.
  revert pByte pBit zeros.
  induction fuel as [| fuel IH]; intros pByte pBit zeros Hinv; simpl; [discriminate |].
  destruct (Z.ltb_spec pByte len) as [Hlt | Hge].
  - destruct (len <=? pByte); [discriminate |]. unfold bind.
    destruct (bit_at b pByte pBit) as [c | |]; try discriminate.
    destruct (c =? 1).
    + intros H. injection H as <- <- <-. exact Hinv.
    + apply IH. apply local_inv_next; assumption.
  - intros H. injection H as <- <- <-. exact Hinv.
Qed.

Lemma glm_suffix_inv (n : nat) (b : list Z) (len pByte pBit tmpVal p' b' t' : Z) :
  local_inv len pByte pBit ->
  glm_suffix n b len pByte pBit tmpVal = Def (Some (p', b', t')) ->
  local_inv len p' b'.
Proof.
  revert pByte pBit tmpVal.
  induction n as [| n IH]; intros pByte pBit tmpVal Hinv; simpl.
  - intros H. injection H as <- <- <-. exact Hinv.
  - destruct (Z.ltb_spec pByte len) as [Hlt | Hge].
    + destruct (len <=? pByte); [discriminate |]. unfold bind.
      destruct (bit_at b pByte pBit) as [c | |]; try discriminate.
      apply IH. apply local_inv_next; assumption.
    + intros H. injection H as <- <- <-. exact Hinv.
Qed.

Lemma getGlm_from_inv (fuel : nat) (st st' : BinParser) (v : Z) :
  cursor_inv st -> getGlm_from fuel st = Def (Ok v st') -> cursor_inv st'.
Proof.
  intros Hinv. unfold getGlm_from, bind.
  destruct (glm_prefix _ _ _ _ _ _) as [[[[p1 b1] z1] |] | |] eqn:E1; try discriminate.
  apply glm_prefix_inv in E1; [| apply local_inv_start; exact Hinv].
  destruct (Z.leb_spec (bufLen st) p1) as [Hge | Hlt]; [discriminate |].
  destruct (glm_suffix _ _ _ _ _ _) as [[[[p2 b2] t2] |] | |] eqn:E2; try discriminate.
  apply glm_suffix_inv in E2; [| apply local_inv_next; assumption].
  destruct (31 <=? z1); [discriminate |].
  intros H. injection H as _ <-.
  unfold local_inv in E2. unfold cursor_inv. simpl. lia.
Qed.

Lemma forget_ok {A : Type} (call : exec (ret A)) (st' : BinParser) :
  forget call = Def (Ok tt st') -> exists v, call = Def (Ok v st').
Proof.
  unfold forget. destruct call as [[v s | c s] | u |]; simpl; try discriminate.
  intros H. injection H as <-. exists v. reflexivity.
Qed.

Lemma getBool_inv (st st' : BinParser) (v : bool) :
  cursor_inv st -> no_wrap st 0 1 ->
  getBool st = Def (Ok v st') -> cursor_inv st'.
Proof.
  intros Hinv Hfit. unfold getBool, bind.
  destruct (hasRest _ _ _ _ _) eqn:Hrest; simpl; [| discriminate].
  destruct (bit_at _ _ _); try discriminate.
  intros H. injection H as _ <-. apply advance_inv; auto. lia.
Qed.

Lemma getUInt32_inv (st st' : BinParser) (bits v : Z) :
  cursor_inv st -> no_wrap st 0 bits ->
  getUInt32 st bits = Def (Ok v st') -> cursor_inv st'.
Proof.
  intros Hinv Hfit. unfold getUInt32, bind.
  destruct (bits =? 0).
  - intros H. injection H as _ <-. exact Hinv.
  - destruct (hasRest _ _ _ _ _) eqn:Hrest; simpl; [| discriminate].
    destruct (read_bits _ _ _ _ _); try discriminate.
    intros H. injection H as _ <-. apply advance_inv; auto. lia.
Qed.

Lemma getUInt64_inv (st st' : BinParser) (bits v : Z) :
  cursor_inv st -> no_wrap st 0 bits ->
  getUInt64 st bits = Def (Ok v st') -> cursor_inv st'.
Proof.
  intros Hinv Hfit. unfold getUInt64, bind.
  destruct (bits =? 0).
  - intros H. injection H as _ <-. exact Hinv.
  - destruct (hasRest _ _ _ _ _) eqn:Hrest; simpl; [| discriminate].
    destruct (read_bits _ _ _ _ _); try discriminate.
    intros H. injection H as _ <-. apply advance_inv; auto. lia.
Qed.

Lemma getInt32_inv (st st' : BinParser) (bits v : Z) :
  cursor_inv st -> no_wrap st 0 bits ->
  getInt32 st bits = Def (Ok v st') -> cursor_inv st'.
Proof.
  intros Hinv Hfit. unfold getInt32.
  destruct (getUInt32 st bits) as [[u s | c s] | |] eqn:E; simpl; try discriminate.
  destruct (castInt32 u bits); simpl; try discriminate.
  intros H. injection H as _ <-. eapply getUInt32_inv; eassumption.
Qed.

Lemma getInt64_inv (st st' : BinParser) (bits v : Z) :
  cursor_inv st -> no_wrap st 0 bits ->
  getInt64 st bits = Def (Ok v st') -> cursor_inv st'.
Proof.
  intros Hinv Hfit. unfold getInt64.
  destruct (getUInt64 st bits) as [[u s | c s] | |] eqn:E; simpl; try discriminate.
  destruct (castInt64 u bits); simpl; try discriminate.
  intros H. injection H as _ <-. eapply getUInt64_inv; eassumption.
Qed.

Lemma getBytes_inv (st st' : BinParser) (bytes : Z) (v : list Z) :
  cursor_inv st -> 0 <= bytes -> no_wrap st bytes 0 ->
  BinParser_getBytes st bytes = Def (Ok v st') -> cursor_inv st'.
Proof.
  intros Hinv Hbytes Hfit. unfold BinParser_getBytes, bind.
  destruct (negb (isByteAligned st)); [discriminate |].
  destruct (hasRest _ _ _ _ _) eqn:Hrest; simpl; [| discriminate].
  destruct (copy_bytes _ _ _); try discriminate.
  intros H. injection H as _ <-. apply advance_inv; auto.
Qed.

Lemma getSGlm_inv (st st' : BinParser) (v : Z) :
  cursor_inv st -> getSGlm st = Def (Ok v st') -> cursor_inv st'.
Proof.
  intros Hinv. unfold getSGlm, getSGlm_from. fold (getGlm st).
  destruct (getGlm st) as [[u s | c s] | |] eqn:E; simpl; try discriminate.
  apply getGlm_from_inv in E; [| exact Hinv].
  destruct (negb _); intros H; injection H as _ <-; exact E.
Qed.

Lemma alignByte_inv (st st' : BinParser) :
  cursor_inv st -> alignByte st = Def (Ok tt st') -> cursor_inv st'.
Proof.
  unfold cursor_inv, alignByte, isInBuf. intros (Hp & Hb & Hin).
  destruct (Z.ltb_spec (posByte st) (bufLen st)) as [Hlt | Hge]; simpl.
  - destruct (posBit st =? 0); simpl; intros H; injection H as <-; simpl.
    + lia.
    + unfold wrap64. pow_literals. lia.
  - intros H; injection H as <-. lia.
Qed.

Lemma alignBytes_inv (st st' : BinParser) (bytes : Z) :
  cursor_inv st -> alignBytes st bytes = Def (Ok tt st') -> cursor_inv st'.
Proof.
  intros Hinv. unfold alignBytes, isInBuf.
  destruct (bytes =? 0); [discriminate |].
  destruct (posByte st <? bufLen st); simpl;
    [| intros H; injection H as <-; exact Hinv].
  destruct (_ && _); [intros H; injection H as <-; exact Hinv |].
  match goal with |- context [wrap32 (wrap64 ?x)] => set (a := wrap32 (wrap64 x)) end.
  assert (Ha : 0 <= a) by (subst a; apply wrap32_range).
  destruct (Z.ltb_spec a (bufLen st)) as [Hlt | Hge]; simpl; [| discriminate].
  intros H; injection H as <-. unfold cursor_inv. simpl. lia.
Qed.

Lemma seek_inv (st st' : BinParser) (pByte pBit : Z) :
  0 <= pByte -> 0 <= pBit < 8 ->
  seek_ st pByte pBit = Def (Ok tt st') -> cursor_inv st'.
Proof.
  intros Hp Hb. unfold seek_, isInBuf.
  destruct (Z.ltb_spec pByte (bufLen st)) as [Hlt | Hge]; simpl; [| discriminate].
  intros H; injection H as <-. unfold cursor_inv. simpl. lia.
Qed.

(** C2, as the code has it. Each public operation that returns success
    from a state satisfying the cursor invariant leaves a state satisfying
    it, when [BinParser_seek] is given a bit offset below 8 (it stores the
    offset unchecked) and when the byte position computed by the capacity
    check of a boolean, fixed-width or byte-run read does not exceed 32
    bits. *)
Theorem success_preserves_cursor_inv (o : op) (st st' : BinParser) :
  op_typed o -> cursor_inv st -> within_range o st ->
  run o st = Def (Ok tt st') -> cursor_inv st'.
Proof.
  intros Hty Hinv Hrange.
  destruct o; simpl in *; intros H;
    try (apply forget_ok in H; destruct H as (v & H)).
  - unfold BinParser_reset in H. injection H as <-.
    unfold cursor_inv, uint in *. simpl. lia.
  - eapply getBool_inv; eassumption.
  - eapply getUInt32_inv; eassumption.
  - eapply getUInt64_inv; eassumption.
  - eapply getInt32_inv; eassumption.
  - eapply getInt64_inv; eassumption.
  - unfold uint in Hty. eapply getBytes_inv; try eassumption. lia.
  - eapply getGlm_from_inv; eassumption.
  - eapply getSGlm_inv; eassumption.
  - eapply alignByte_inv; eassumption.
  - eapply alignBytes_inv; eassumption.
  - unfold uint in Hty. eapply seek_inv; [| | exact H]; lia.
  - unfold BinParser_skip in H. eapply seek_inv; [| | exact H].
    + apply wrap32_range.
    + rewrite land7. lia.
  - unfold BinParser_getPos in H. replace st' with st by congruence. exact Hinv.
Qed.

(** Reading the last five bits of the byte [B4] from bit 3 leaves the
    cursor at the end of the buffer. *)
Lemma success_preserves_cursor_inv_witness :
  cursor_inv (mkBinParser [180] 1 1 0).
Proof.
  apply (success_preserves_cursor_inv (OpGetUInt32 5) (mkBinParser [180] 1 0 3)).
  - simpl. unfold uint. lia.
  - unfold cursor_inv. simpl. lia.
  - simpl. unfold no_wrap. simpl. vm_compute. reflexivity.
  - reflexivity.
Defined.

(** C2, as stated, fails: [BinParser_seek] checks the byte position only,
    and a successful seek to bit offset 8 leaves [posBit = 8]. *)
Lemma seek_breaks_cursor_inv :
  let st := mkBinParser [180] 1 0 0 in
  cursor_inv st /\
  run (OpSeek 0 8) st = Def (Ok tt (mkBinParser [180] 1 0 8)) /\
  ~ cursor_inv (mkBinParser [180] 1 0 8).
Proof.
  cbv zeta. unfold cursor_inv. simpl. repeat split; try lia.
Qed.

(** ** Range of the unsigned Exp-Golomb value *)

Lemma pow2_pos (n : Z) : 0 <= n -> 0 < 2 ^ n.
Proof. intros H. apply Z.pow_pos_nonneg; lia. Qed.

Lemma pow2_succ (n : Z) : 0 <= n -> 2 ^ (n + 1) = 2 * 2 ^ n.
Proof. intros H. rewrite Z.pow_add_r by lia. lia. Qed.

Lemma pow2_le (n m : Z) : 0 <= n <= m -> 2 ^ n <= 2 ^ m.
Proof. intros H. apply Z.pow_le_mono_r; lia. Qed.

(** Pushing a bit on an accumulator of [i < 32] bits gives one of
    [i + 1] bits, without loss. *)
Lemma push_bit_exact (i tmpVal c : Z) :
  0 <= i < 32 -> 0 <= tmpVal < 2 ^ i -> c = 0 \/ c = 1 ->
  push_bit tmpVal c = 2 * tmpVal + c /\ 0 <= push_bit tmpVal c < 2 ^ (i + 1).
Proof.
  intros Hi Ht Hc. rewrite push_bit_eq by exact Hc.
  pose proof (pow2_le i 31 ltac:(lia)) as Hle.
  rewrite (Z.mod_small tmpVal (2 ^ 31)) by lia.
  rewrite pow2_succ by lia. lia.
Qed.

Lemma glm_prefix_zeros (fuel : nat) (b : list Z) (len pByte pBit zeros p' b' z' : Z) :
  0 <= zeros ->
  glm_prefix fuel b len pByte pBit zeros = Def (Some (p', b', z')) -> 0 <= z'.
Proof.
  revert pByte pBit zeros.
  induction fuel as [| fuel IH]; intros pByte pBit zeros Hz; simpl; [discriminate |].
  destruct (pByte <? len).
  - destruct (len <=? pByte); [discriminate |]. unfold bind.
    destruct (bit_at b pByte pBit) as [c | |]; try discriminate.
    destruct (c =? 1).
    + intros H. injection H as <- <- <-. exact Hz.
    + apply IH. apply wrap32_range.
  - intros H. injection H as <- <- <-. exact Hz.
Qed.

Lemma glm_suffix_below (n : nat) (b : list Z) (len pByte pBit tmpVal p' b' t' i : Z) :
  0 <= i -> i + Z.of_nat n <= 32 -> 0 <= tmpVal < 2 ^ i ->
  glm_suffix n b len pByte pBit tmpVal = Def (Some (p', b', t')) ->
  0 <= t' < 2 ^ (i + Z.of_nat n).
Proof.
  revert pByte pBit tmpVal i.
  induction n as [| n IH]; intros pByte pBit tmpVal i Hi Hn Ht; simpl glm_suffix.
  - intros H. injection H as <- <- <-. replace (i + Z.of_nat 0) with i by lia.
    exact Ht.
  - assert (Hstay : 0 <= tmpVal < 2 ^ (i + Z.of_nat (S n))).
    { pose proof (pow2_le i (i + Z.of_nat (S n)) ltac:(lia)). lia. }
    destruct (pByte <? len).
    + destruct (len <=? pByte); [discriminate |]. unfold bind.
      destruct (bit_at b pByte pBit) as [c | |] eqn:E; try discriminate.
      apply bit_at_is_bit in E.
      destruct (push_bit_exact i tmpVal c ltac:(lia) Ht E) as (_ & Hpush).
      intros H. apply (IH _ _ _ (i + 1)) in H; [| lia | lia | exact Hpush].
      replace (i + Z.of_nat (S n)) with (i + 1 + Z.of_nat n) by lia. exact H.
    + intros H. injection H as <- <- <-. exact Hstay.
Qed.

Lemma getGlm_from_range (fuel : nat) (st st' : BinParser) (u : Z) :
  getGlm_from fuel st = Def (Ok u st') -> 0 <= u <= 2 ^ 31 - 2.
Proof.
  unfold getGlm_from, bind.
  destruct (glm_prefix _ _ _ _ _ _) as [[[[p1 b1] z1] |] | |] eqn:E1; try discriminate.
  apply glm_prefix_zeros in E1; [| lia].
  destruct (bufLen st <=? p1); [discriminate |].
  destruct (glm_suffix _ _ _ _ _ _) as [[[[p2 b2] t2] |] | |] eqn:E2; try discriminate.
  destruct (Z.leb_spec 31 z1) as [Hbig | Hsmall]; [discriminate |].
  apply (glm_suffix_below _ _ _ _ _ _ _ _ _ 0) in E2;
    [| lia | lia | simpl; lia].
  rewrite Z2Nat.id, Z.add_0_l in E2 by lia.
  intros H. injection H as <- _.
  rewrite Z.shiftl_mul_pow2, Z.mul_1_l by lia.
  pose proof (pow2_le z1 30 ltac:(lia)) as Hle.
  pose proof (pow2_pos z1 E1) as Hpos.
  change (2 ^ 30) with 1073741824 in Hle.
  rewrite wrap32_small by (pow_literals; lia).
  pow_literals. lia.
Qed.

(** ** The signed Exp-Golomb read *)

Lemma odd_land1 (u : Z) : (Z.land u 1 =? 0) = negb (Z.odd u).
Proof.
  rewrite land1, <- Z.bit0_mod, Z.bit0_odd.
  destruct (Z.odd u); reflexivity.
Qed.

(** C7. Wherever the unsigned Exp-Golomb read succeeds with value [u], the
    signed read at the same position succeeds with the same final cursor
    and returns [(u >> 1) + 1] for odd [u] and [-(u >> 1)] for even [u];
    the unsigned values 0, 1, 2, 3, 4 give 0, +1, -1, +2, -2. *)
Theorem getSGlm_maps_getGlm (st st' : BinParser) (u : Z) :
  getGlm st = Def (Ok u st') ->
  getSGlm st = Def (Ok (signed_of u) st') /\
  map signed_of [0; 1; 2; 3; 4] = [0; 1; -1; 2; -2].
Proof.
  intros H. split; [| reflexivity].
  pose proof (getGlm_from_range _ _ _ _ H) as Hu.
  unfold getSGlm, getSGlm_from, signed_of. fold (getGlm st). rewrite H. simpl bind.
  rewrite odd_land1, negb_involutive, Z.shiftr_div_pow2 by lia.
  change (2 ^ 1) with 2.
  destruct (Z.odd u); do 2 f_equal; unfold to_int32, wrap32; pow_literals.
  - rewrite Z.mod_small by lia.
    destruct (Z.ltb_spec (u / 2 + 1) 2147483648); lia.
  - destruct (Z.ltb_spec (- (u / 2) mod 4294967296) 2147483648); lia.
Qed.

(** The code [00101] decodes to the unsigned value 4 and to the signed
    value -2, with the cursor five bits on. *)
Lemma getSGlm_maps_getGlm_witness :
  getSGlm (mkBinParser [40] 1 0 0) = Def (Ok (-2) (mkBinParser [40] 1 0 5)).
Proof.
  apply (proj1 (getSGlm_maps_getGlm (mkBinParser [40] 1 0 0)
                  (mkBinParser [40] 1 0 5) 4 eq_refl)).
Defined.

(** ** Fixed-width reads inside the buffer *)

Lemma load_in_range (b : list Z) (i : Z) :
  0 <= i < Z.of_nat (length b) -> exists x, load b i = Def x.
Proof.
  intros H. unfold load. destruct (Z.ltb_spec i 0); [lia |].
  destruct (nth_error b (Z.to_nat i)) as [x |] eqn:E.
  - exists x. reflexivity.
  - apply nth_error_None in E. lia.
Qed.

Lemma bit_at_in_range (b : list Z) (pByte pBit : Z) :
  0 <= pByte < Z.of_nat (length b) -> 0 <= pBit < 8 ->
  exists c, bit_at b pByte pBit = Def c.
Proof.
  intros Hp Hb. unfold bit_at, bind.
  destruct (load_in_range b pByte Hp) as (x & ->).
  rewrite wrap32_small by (pow_literals; lia).
  destruct (Z.leb_spec 32 (7 - pBit)); [lia |].
  eexists. reflexivity.
Qed.

(** A local cursor that moves on by one bit never gets ahead of the exact
    position, also when its byte index wraps. *)
Lemma next_cursor_le (pByte pBit : Z) :
  0 <= pByte -> 0 <= pBit < 8 ->
  0 <= next_byte pByte pBit /\ 0 <= next_bit pBit < 8 /\
  8 * next_byte pByte pBit + next_bit pBit <= 8 * pByte + pBit + 1.
Proof.
  intros Hp Hb. rewrite next_byte_eq, next_bit_eq by lia.
  pose proof (wrap32_range (pByte + (pBit + 1) / 8)).
  pose proof (wrap32_le (pByte + (pBit + 1) / 8) ltac:(lia)).
  lia.
Qed.

(** The read loop stays inside the buffer when [n] bits remain. *)
Lemma read_bits_defined (n : nat) (b : list Z) (pByte pBit tmpVal : Z) :
  0 <= pByte -> 0 <= pBit < 8 ->
  8 * pByte + pBit + Z.of_nat n <= 8 * Z.of_nat (length b) ->
  exists v, read_bits n b pByte pBit tmpVal = Def v.
Proof.
  revert pByte pBit tmpVal.
  induction n as [| n IH]; intros pByte pBit tmpVal Hp Hb Hn; simpl.
  - exists tmpVal. reflexivity.
  - destruct (bit_at_in_range b pByte pBit ltac:(lia) Hb) as (c & ->). simpl.
    destruct (next_cursor_le pByte pBit Hp Hb) as (H1 & H2 & H3).
    apply IH; lia.
Qed.

(** A read of [n] bits into an accumulator of [i] bits gives a number of
    [i + n] bits, as long as [i + n <= 32]. *)
Lemma read_bits_width (n : nat) (b : list Z) (pByte pBit tmpVal v i : Z) :
  0 <= i -> i + Z.of_nat n <= 32 -> 0 <= tmpVal < 2 ^ i ->
  read_bits n b pByte pBit tmpVal = Def v ->
  0 <= v < 2 ^ (i + Z.of_nat n).
Proof.
  revert pByte pBit tmpVal i.
  induction n as [| n IH]; intros pByte pBit tmpVal i Hi Hn Ht; simpl read_bits.
  - intros H. injection H as <-. replace (i + Z.of_nat 0) with i by lia. exact Ht.
  - unfold bind. destruct (bit_at b pByte pBit) as [c | |] eqn:E; try discriminate.
    apply bit_at_is_bit in E.
    destruct (push_bit_exact i tmpVal c ltac:(lia) Ht E) as (_ & Hpush).
    intros H. apply (IH _ _ _ (i + 1)) in H; [| lia | lia | exact Hpush].
    replace (i + Z.of_nat (S n)) with (i + 1 + Z.of_nat n) by lia. exact H.
Qed.

(** The capacity check passes when the bits asked for are in the buffer. *)
Lemma hasRest_remaining (pByte pBit bits len : Z) :
  0 <= pByte -> 0 <= pBit < 8 -> 0 <= bits < 2 ^ 31 ->
  8 * pByte + pBit + bits <= 8 * len ->
  hasRest pByte pBit 0 bits len = true.
Proof.
  intros Hp Hb Hbits Hrem. unfold hasRest.
  rewrite wrap32_wrap64, shiftr3, land7.
  rewrite (wrap32_small (pBit + bits)) by (pow_literals; lia).
  pose proof (wrap32_range (pByte + 0 + (pBit + bits) / 8)) as Hr.
  pose proof (wrap32_le (pByte + 0 + (pBit + bits) / 8) ltac:(lia)) as Hle.
  set (nb := wrap32 (pByte + 0 + (pBit + bits) / 8)) in *.
  destruct (Z.ltb_spec nb len); [reflexivity |].
  destruct (Z.eqb_spec nb len); [| lia].
  destruct (Z.eqb_spec ((pBit + bits) mod 8) 0); [reflexivity | lia].
Qed.

(** ** Sign extension *)

Lemma land_low_high (a u w : Z) :
  0 <= w -> 0 <= u < 2 ^ w -> Z.land (a * 2 ^ w) u = 0.
Proof.
  intros Hw Hu. apply Z.bits_inj'. intros n Hn.
  rewrite Z.land_spec, Z.bits_0.
  destruct (Z.lt_ge_cases n w) as [Hlt | Hge].
  - rewrite Z.mul_pow2_bits_low by lia. reflexivity.
  - rewrite <- (Z.mod_small u (2 ^ w)) by exact Hu.
    rewrite Z.mod_pow2_bits_high by lia. apply andb_false_r.
Qed.

Lemma lor_low_high (a u w : Z) :
  0 <= w -> 0 <= u < 2 ^ w -> Z.lor (a * 2 ^ w) u = a * 2 ^ w + u.
Proof.
  intros Hw Hu. pose proof (land_low_high a u w Hw Hu) as H.
  rewrite <- Z.lxor_lor by exact H. symmetry. apply Z.add_nocarry_lxor. exact H.
Qed.

Lemma land_mask (u w : Z) : 0 <= w -> Z.land u (2 ^ w - 1) = u mod 2 ^ w.
Proof.
  intros Hw. rewrite <- Z.land_ones by exact Hw. f_equal.
  rewrite Z.ones_equiv. lia.
Qed.

Lemma mask32 (w : Z) :
  1 <= w <= 32 -> wrap32 (wrap64 (Z.shiftl 1 w - 1)) = 2 ^ w - 1.
Proof.
  intros Hw. rewrite wrap32_wrap64, Z.shiftl_mul_pow2, Z.mul_1_l by lia.
  pose proof (pow2_le w 32 ltac:(lia)). pose proof (pow2_pos w ltac:(lia)).
  apply wrap32_small. lia.
Qed.

Lemma not32_mask (w : Z) :
  1 <= w <= 32 -> not32 (2 ^ w - 1) = (2 ^ (32 - w) - 1) * 2 ^ w.
Proof.
  intros Hw. unfold not32.
  pose proof (Z.add_lnot_diag (2 ^ w - 1)) as Hn.
  replace (Z.lnot (2 ^ w - 1)) with (- 2 ^ w) by lia.
  assert (E : 2 ^ 32 = 2 ^ (32 - w) * 2 ^ w).
  { rewrite <- Z.pow_add_r by lia. f_equal. lia. }
  pose proof (pow2_pos w ltac:(lia)). pose proof (pow2_pos (32 - w) ltac:(lia)).
  unfold wrap32. symmetry. apply Z.mod_unique_pos with (q := -1); nia.
Qed.

(** Sign extension of a [w]-bit number: subtract [2^w] when bit [w - 1]
    is set. *)
Lemma castInt32_value (u w : Z) :
  1 <= w <= 32 -> 0 <= u < 2 ^ w ->
  castInt32 u w = Def (if u <? 2 ^ (w - 1) then u else u - 2 ^ w).
Proof.
  intros Hw Hu. unfold castInt32.
  destruct (Z.leb_spec 64 w); [lia |].
  rewrite mask32 by exact Hw.
  rewrite (wrap32_small (w - 1)) by (pow_literals; lia).
  destruct (Z.leb_spec 32 (w - 1)); [lia |].
  rewrite !land_mask, (Z.mod_small u) by lia.
  rewrite land1, Z.shiftr_div_pow2 by lia.
  assert (E : 2 ^ w = 2 * 2 ^ (w - 1)).
  { rewrite <- pow2_succ by lia. f_equal. lia. }
  pose proof (pow2_pos (w - 1) ltac:(lia)) as Hpos.
  pose proof (pow2_le w 32 ltac:(lia)) as Hle.
  assert (E32 : 2 ^ 32 = 2 ^ (32 - w) * 2 ^ w).
  { rewrite <- Z.pow_add_r by lia. f_equal. lia. }
  pose proof (pow2_pos (32 - w) ltac:(lia)) as Hpos'.
  destruct (Z.ltb_spec u (2 ^ (w - 1))) as [Hlo | Hhi].
  - rewrite Z.div_small by lia. simpl. f_equal. unfold to_int32.
    destruct (Z.ltb_spec u (2 ^ 31)); [reflexivity |].
    pose proof (pow2_le (w - 1) 31 ltac:(lia)). lia.
  - replace (u / 2 ^ (w - 1)) with 1 
      by (apply Z.div_unique with (r := u - 2 ^ (w - 1)); lia).
    simpl. f_equal. rewrite not32_mask, lor_low_high by lia.
    unfold to_int32.
    destruct (Z.ltb_spec ((2 ^ (32 - w) - 1) * 2 ^ w + u) (2 ^ 31)) as [Hlt | Hge].
    + pose proof (pow2_le (w - 1) 31 ltac:(lia)). nia.
    + nia.
Qed.

(** C8. For a width [w] in [[1, 32]] and a reader with at least [w] bits
    left, the unsigned and the signed 32-bit reads of [w] bits from the
    same position both succeed, and the unsigned value is the two's
    complement representation of the signed value ([wrap32 s]) truncated
    to its [w] low bits. *)
Theorem signed_unsigned_agree (st : BinParser) (w : Z) :
  1 <= w <= 32 ->
  0 <= posByte st -> 0 <= posBit st < 8 -> buffer_ok st ->
  bit_offset st + w <= 8 * bufLen st ->
  exists u s st',
    getUInt32 st w = Def (Ok u st') /\
    getInt32 st w = Def (Ok s st') /\
    u = wrap32 s mod 2 ^ w.
Proof.
  intros Hw Hp Hb Hbuf Hrem. unfold bit_offset, buffer_ok in *.
  assert (Hrest : hasRest (posByte st) (posBit st) 0 w (bufLen st) = true)
    by (apply hasRest_remaining; pow_literals; lia).
  pose proof (wrap32_range (posByte st)) as Hr.
  pose proof (wrap32_le (posByte st) Hp) as Hle.
  destruct (read_bits_defined (Z.to_nat w) (buf st) (wrap32 (posByte st))
              (posBit st) 0 ltac:(lia) Hb ltac:(lia)) as (u & Hread).
  assert (Hu : 0 <= u < 2 ^ (0 + Z.of_nat (Z.to_nat w))).
  { eapply read_bits_width; [| | | exact Hread]; simpl; lia. }
  rewrite Z2Nat.id, Z.add_0_l in Hu by lia.
  assert (HU : getUInt32 st w = Def (Ok u (BIN_PARSER_ADVANCE_POS st 0 w))).
  { unfold getUInt32. destruct (Z.eqb_spec w 0); [lia |].
    rewrite Hrest, Hread. reflexivity. }
  exists u, (if u <? 2 ^ (w - 1) then u else u - 2 ^ w), (BIN_PARSER_ADVANCE_POS st 0 w).
  split; [exact HU |]. split.
  - unfold getInt32. rewrite HU. simpl bind.
    rewrite castInt32_value by assumption. reflexivity.
  - pose proof (pow2_le w 32 ltac:(lia)) as Hle32.
    assert (E32 : 2 ^ 32 = 2 ^ (32 - w) * 2 ^ w).
    { rewrite <- Z.pow_add_r by lia. f_equal. lia. }
    pose proof (pow2_pos (32 - w) ltac:(lia)) as Hpos'.
    destruct (Z.ltb_spec u (2 ^ (w - 1))) as [Hlo | Hhi].
    + rewrite wrap32_small, Z.mod_small by lia. reflexivity.
    + assert (Ew : wrap32 (u - 2 ^ w) = u + (2 ^ (32 - w) - 1) * 2 ^ w).
      { unfold wrap32. symmetry. apply Z.mod_unique_pos with (q := -1); nia. }
      rewrite Ew, Z.mod_add, Z.mod_small by lia. reflexivity.
Qed.

(** Three bits [111] read unsigned are 7, read signed are -1, and
    [(-1) mod 2^32 mod 2^3 = 7]. *)
Lemma signed_unsigned_agree_witness :
  exists u s st',
    getUInt32 (mkBinParser [255; 0] 2 0 0) 3 = Def (Ok u st') /\
    getInt32 (mkBinParser [255; 0] 2 0 0) 3 = Def (Ok s st') /\
    u = wrap32 s mod 2 ^ 3.
Proof.
  apply (signed_unsigned_agree (mkBinParser [255; 0] 2 0 0) 3).
  - lia.
  - simpl. lia.
  - simpl. lia.
  - reflexivity.
  - unfold bit_offset. simpl. lia.
Defined.

(** ** Bits of the buffer *)

Lemma buffer_bit_Some (b : list Z) (k : Z) (c : bool) :
  buffer_bit b k = Some c ->
  0 <= k /\ k / 8 < Z.of_nat (length b) /\
  bit_at b (k / 8) (k mod 8) = Def (Z.b2z c).
Proof.
  intros H. assert (Hk : 0 <= k).
  { unfold buffer_bit in H. destruct (Z.ltb_spec k 0); [discriminate | lia]. }
  assert (Hlen : k / 8 < Z.of_nat (length b)).
  { unfold buffer_bit in H. destruct (k <? 0); [discriminate |].
    destruct (nth_error b (Z.to_nat (k / 8))) eqn:E; [| discriminate].
    assert (Hn : nth_error b (Z.to_nat (k / 8)) <> None) by congruence.
    apply nth_error_Some in Hn. lia. }
  repeat split; try assumption.
  rewrite bit_at_buffer_bit by lia.
  replace (8 * (k / 8) + k mod 8) with k by lia.
  rewrite H. reflexivity.
Qed.

Lemma bits_at_app (b : list Z) (xs ys : list bool) (k : Z) :
  bits_at b k (xs ++ ys) <->
  bits_at b k xs /\ bits_at b (k + Z.of_nat (length xs)) ys.
Proof.
  revert k. induction xs as [| x xs IH]; intros k.
  - simpl. rewrite Z.add_0_r. tauto.
  - change ((x :: xs) ++ ys) with (x :: (xs ++ ys)). simpl bits_at.
    rewrite IH. replace (k + 1 + Z.of_nat (length xs))
      with (k + Z.of_nat (length (x :: xs))) by (simpl length; lia). tauto.
Qed.

Lemma msb_bits_length (n : nat) (x : Z) : length (msb_bits n x) = n.
Proof. induction n as [| n IH]; simpl; [reflexivity | rewrite IH; reflexivity]. Qed.

Lemma msb_value_range (bs : list bool) :
  0 <= msb_value bs < 2 ^ Z.of_nat (length bs).
Proof.
  induction bs as [| c cs IH]; simpl msb_value; simpl length.
  - simpl. lia.
  - replace (Z.of_nat (S (length cs))) with (Z.of_nat (length cs) + 1) by lia.
    rewrite pow2_succ by lia. destruct c; simpl Z.b2z; lia.
Qed.

Lemma msb_value_bits (n : nat) (x : Z) :
  msb_value (msb_bits n x) = x mod 2 ^ Z.of_nat n.
Proof.
  induction n as [| n IH].
  - simpl. rewrite Z.mod_1_r. reflexivity.
  - simpl msb_bits. simpl msb_value. rewrite msb_bits_length, IH.
    rewrite Z.testbit_spec' by lia.
    replace (Z.of_nat (S n)) with (Z.of_nat n + 1) by lia.
    rewrite pow2_succ, (Z.mul_comm 2) by lia.
    pose proof (pow2_pos (Z.of_nat n) ltac:(lia)).
    rewrite Z.rem_mul_r by lia. lia.
Qed.

(** The exact cursor one bit after bit offset [k], below [2^32] bytes. *)
Lemma next_cursor_exact (k : Z) :
  0 <= k -> k / 8 + 1 < 2 ^ 32 ->
  next_byte (k / 8) (k mod 8) = (k + 1) / 8 /\
  next_bit (k mod 8) = (k + 1) mod 8.
Proof.
  intros Hk Hfit. rewrite next_byte_eq, next_bit_eq by lia.
  rewrite wrap32_small by (pow_literals; lia). lia.
Qed.

(** ** The loops of the Exp-Golomb read on a code *)

Section GlmLoops.
Variables (b : list Z) (len : Z).
Hypothesis Hlen : len = Z.of_nat (length b).
Hypothesis Hsmall : len < 2 ^ 32.

(** The prefix loop counts [z] zeros and stops on the 1-bit. *)
Lemma glm_prefix_run (z fuel : nat) (k zeros : Z) :
  (z < fuel)%nat ->
  bits_at b k (repeat false z ++ [true]) ->
  0 <= zeros -> zeros + Z.of_nat z < 2 ^ 32 ->
  glm_prefix fuel b len (k / 8) (k mod 8) zeros
  = Def (Some ((k + Z.of_nat z) / 8, (k + Z.of_nat z) mod 8, zeros + Z.of_nat z)).
Proof.
  revert fuel k zeros.
  induction z as [| z IH]; intros fuel k zeros Hfuel Hbits Hz Hfit;
    (destruct fuel as [| fuel]; [lia |]); simpl in Hbits;
    destruct Hbits as (Hbit & Hbits);
    destruct (buffer_bit_Some _ _ _ Hbit) as (Hk & Hin & Hat);
    simpl glm_prefix;
    (destruct (Z.ltb_spec (k / 8) len); [| lia]);
    (destruct (Z.leb_spec len (k / 8)); [lia |]);
    rewrite Hat; simpl bind.
  - replace (k + Z.of_nat 0) with k by lia.
    replace (zeros + Z.of_nat 0) with zeros by lia. reflexivity.
  - destruct (next_cursor_exact k Hk ltac:(lia)) as (-> & ->).
    rewrite wrap32_small by lia.
    rewrite (IH fuel (k + 1) (zeros + 1)); [| lia | exact Hbits | lia | lia].
    replace (k + 1 + Z.of_nat z) with (k + Z.of_nat (S z)) by lia.
    replace (zeros + 1 + Z.of_nat z) with (zeros + Z.of_nat (S z)) by lia.
    reflexivity.
Qed.

(** The suffix loop reads the bits [bs] most significant first, and goes
    on with the iterations that are left. *)
Lemma glm_suffix_run (bs : list bool) (extra : nat) (k tmpVal : Z) :
  bits_at b k bs ->
  0 <= k -> 0 <= tmpVal ->
  tmpVal * 2 ^ Z.of_nat (length bs) + msb_value bs < 2 ^ 32 ->
  glm_suffix (length bs + extra) b len (k / 8) (k mod 8) tmpVal
  = glm_suffix extra b len ((k + Z.of_nat (length bs)) / 8)
      ((k + Z.of_nat (length bs)) mod 8)
      (tmpVal * 2 ^ Z.of_nat (length bs) + msb_value bs).
Proof.
  revert k tmpVal.
  induction bs as [| c cs IH]; intros k tmpVal Hbits Hk Ht Hfit.
  - simpl. replace (k + 0) with k by lia. f_equal. lia.
  - simpl in Hbits. destruct Hbits as (Hbit & Hbits).
    destruct (buffer_bit_Some _ _ _ Hbit) as (_ & Hin & Hat).
    change (length (c :: cs)) with (S (length cs)) in *.
    change (msb_value (c :: cs))
      with (Z.b2z c * 2 ^ Z.of_nat (length cs) + msb_value cs) in *.
    replace (Z.of_nat (S (length cs))) with (Z.of_nat (length cs) + 1) in * by lia.
    change (S (length cs) + extra)%nat with (S (length cs + extra)).
    cbn [glm_suffix].
    destruct (Z.ltb_spec (k / 8) len); [| lia].
    destruct (Z.leb_spec len (k / 8)); [lia |].
    rewrite Hat. cbn [bind].
    destruct (next_cursor_exact k Hk ltac:(lia)) as (-> & ->).
    rewrite pow2_succ in * by lia.
    pose proof (pow2_pos (Z.of_nat (length cs)) ltac:(lia)) as Hpos.
    pose proof (msb_value_range cs) as Hcs.
    assert (Hc : Z.b2z c = 0 \/ Z.b2z c = 1) by (destruct c; simpl; lia).
    assert (Hacc : 0 <= tmpVal < 2 ^ 31) by (pow_literals; nia).
    rewrite push_bit_eq, (Z.mod_small tmpVal) by assumption.
    rewrite IH; [| exact Hbits | lia | lia | nia].
    replace (k + 1 + Z.of_nat (length cs)) with (k + (Z.of_nat (length cs) + 1)) by lia.
    f_equal. nia.
Qed.
End GlmLoops.

(** The read on a code of [z <= 30] zeros, a 1-bit and the suffix bits
    [bs]: either all [z] suffix bits ([extra = 0]), or the suffix bits up
    to the end of the buffer. *)
Lemma getGlm_on_code (st : BinParser) (z extra : nat) (bs : list bool) :
  0 <= posByte st -> 0 <= posBit st < 8 ->
  buffer_ok st -> bufLen st < 2 ^ 32 ->
  (z <= 30)%nat ->
  bits_at (buf st) (bit_offset st) (repeat false z ++ true :: bs) ->
  (length bs + extra = z)%nat ->
  extra = O \/
  bit_offset st + Z.of_nat z + 1 + Z.of_nat (length bs) = 8 * bufLen st ->
  getGlm st
  = Def (Ok (msb_value bs + 2 ^ Z.of_nat z - 1)
            (at_offset st (bit_offset st + Z.of_nat z + 1 + Z.of_nat (length bs)))).
Proof.
  intros Hp Hb Hbuf Hsmall Hz Hbits Hlen Hend.
  unfold buffer_ok in Hbuf. unfold bit_offset in *.
  set (k := 8 * posByte st + posBit st) in *.
  assert (Hk8 : k / 8 = posByte st) by (subst k; lia).
  assert (Hkm : k mod 8 = posBit st) by (subst k; lia).
  apply bits_at_app in Hbits. rewrite repeat_length in Hbits.
  destruct Hbits as (Hzeros & Hrest).
  simpl in Hrest. destruct Hrest as (Hone & Hsuffix).
  assert (Hprefix : bits_at (buf st) k (repeat false z ++ [true])).
  { apply bits_at_app. rewrite repeat_length. simpl. auto. }
  destruct (buffer_bit_Some _ _ _ Hone) as (Hkz & Hin & _).
  assert (Hk : 0 <= k) by (subst k; lia).
  unfold getGlm, getGlm_from, glm_fuel.
  rewrite wrap32_small by lia.
  rewrite <- Hk8, <- Hkm.
  rewrite (glm_prefix_run (buf st) (bufLen st) Hbuf Hsmall z _ k 0);
    [| lia | exact Hprefix | lia | pow_literals; lia].
  cbn [bind]. rewrite Z.add_0_l.
  destruct (Z.leb_spec (bufLen st) ((k + Z.of_nat z) / 8)); [lia |].
  destruct (next_cursor_exact (k + Z.of_nat z) ltac:(lia) ltac:(lia)) as (-> & ->).
  replace (Z.to_nat (Z.of_nat z)) with (length bs + extra)%nat by lia.
  pose proof (msb_value_range bs) as Hval.
  pose proof (pow2_le (Z.of_nat (length bs)) (Z.of_nat z) ltac:(lia)) as Hle1.
  pose proof (pow2_le (Z.of_nat z) 30 ltac:(lia)) as Hle2.
  pose proof (pow2_pos (Z.of_nat z) ltac:(lia)) as Hpos.
  change (2 ^ 30) with 1073741824 in Hle2.
  rewrite (glm_suffix_run (buf st) (bufLen st) Hbuf Hsmall bs extra
             (k + Z.of_nat z + 1) 0);
    [| exact Hsuffix | lia | lia | pow_literals; lia].
  rewrite Z.mul_0_l, Z.add_0_l.
  assert (Hloop :
    glm_suffix extra (buf st) (bufLen st)
      ((k + Z.of_nat z + 1 + Z.of_nat (length bs)) / 8)
      ((k + Z.of_nat z + 1 + Z.of_nat (length bs)) mod 8) (msb_value bs)
    = Def (Some ((k + Z.of_nat z + 1 + Z.of_nat (length bs)) / 8,
                 (k + Z.of_nat z + 1 + Z.of_nat (length bs)) mod 8,
                 msb_value bs))).
  { destruct extra as [| extra]; [reflexivity |].
    destruct Hend as [Hend | Hend]; [discriminate |].
    cbn [glm_suffix]. rewrite Hend.
    destruct (Z.ltb_spec (8 * bufLen st / 8) (bufLen st)); [lia | reflexivity]. }
  rewrite Hloop. cbn [bind].
  destruct (Z.leb_spec 31 (Z.of_nat z)); [lia |].
  rewrite Z.shiftl_mul_pow2, Z.mul_1_l by lia.
  rewrite wrap32_small by (pow_literals; lia).
  unfold at_offset. do 2 f_equal. lia.
Qed.

(** ** The unsigned Exp-Golomb read *)

Lemma glm_encode_shape (v : Z) :
  0 <= v <= 2 ^ 31 - 2 ->
  (glm_zeros v <= 30)%nat /\
  0 <= v + 1 - 2 ^ Z.of_nat (glm_zeros v) < 2 ^ Z.of_nat (glm_zeros v).
Proof.
  intros Hv. unfold glm_zeros.
  pose proof (Z.log2_nonneg (v + 1)) as Hnn.
  pose proof (Z.log2_spec (v + 1) ltac:(lia)) as Hspec.
  rewrite Z2Nat.id by lia.
  assert (Hlt : Z.log2 (v + 1) < 31).
  { apply Z.log2_lt_pow2; pow_literals; lia. }
  unfold Z.succ in Hspec. rewrite pow2_succ in Hspec by lia.
  split; lia.
Qed.

(** C5, as the code has it. For a value [v] with [0 <= v <= 2^31 - 2]
    (a code of at most 30 prefix zeros), in a buffer of less than [2^32]
    bytes: when the Exp-Golomb code of [v] lies in the buffer at the
    cursor, the unsigned Exp-Golomb read returns [v] and leaves the cursor
    just after the code.  The codes of 0, 1, 2, 3, 4 are [1], [010],
    [011], [00100], [00101]. *)
Theorem getGlm_decodes_code (st : BinParser) (v : Z) :
  0 <= posByte st -> 0 <= posBit st < 8 ->
  buffer_ok st -> bufLen st < 2 ^ 32 ->
  0 <= v <= 2 ^ 31 - 2 ->
  bits_at (buf st) (bit_offset st) (glm_encode v) ->
  getGlm st
  = Def (Ok v (at_offset st (bit_offset st + Z.of_nat (length (glm_encode v))))) /\
  map glm_encode [0; 1; 2; 3; 4]
  = [[true]; [false; true; false]; [false; true; true];
     [false; false; true; false; false]; [false; false; true; false; true]].
Proof.
  intros Hp Hb Hbuf Hsmall Hv Hbits. split; [| reflexivity].
  destruct (glm_encode_shape v Hv) as (Hz & Hs).
  unfold glm_encode, glm_code in *.
  set (z := glm_zeros v) in *. set (s := v + 1 - 2 ^ Z.of_nat z) in *.
  rewrite (getGlm_on_code st z 0 (msb_bits z s) Hp Hb Hbuf Hsmall Hz Hbits);
    [| rewrite msb_bits_length; lia | left; reflexivity].
  rewrite msb_value_bits, Z.mod_small by exact Hs.
  rewrite length_app, repeat_length. simpl length. rewrite msb_bits_length.
  do 2 f_equal; [subst s; lia |]. f_equal. lia.
Qed.

(** The byte [28] starts with [00101], the code of 4. *)
Lemma getGlm_decodes_code_witness :
  getGlm (mkBinParser [40] 1 0 0) = Def (Ok 4 (mkBinParser [40] 1 0 5)).
Proof.
  apply (proj1 (getGlm_decodes_code (mkBinParser [40] 1 0 0) 4
                  ltac:(simpl; lia) ltac:(simpl; lia) eq_refl
                  ltac:(simpl; lia) ltac:(simpl; lia)
                  ltac:(vm_compute; repeat split))).
Defined.

(** C5, as stated, fails: the read returns a [uint32_t].  The code of
    [2^32] is 32 zeros, a 1-bit and the 32 suffix bits [0...01]; it lies
    in the nine bytes [00 00 00 00 80 00 00 00 80], and the read does not
    return [2^32]. *)
Lemma getGlm_misses_large_value :
  let st := mkBinParser [0; 0; 0; 0; 128; 0; 0; 0; 128] 9 0 0 in
  cursor_inv st /\ buffer_ok st /\
  bits_at (buf st) (bit_offset st) (glm_encode (2 ^ 32)) /\
  forall st', getGlm st <> Def (Ok (2 ^ 32) st').
Proof.
  cbv zeta. split; [| split; [| split]].
  - unfold cursor_inv. simpl. lia.
  - reflexivity.
  - vm_compute. repeat split.
  - intros st'. vm_compute. discriminate.
Qed.

(** C6, as the code has it. When the prefix of [zeros <= 30] 0-bits and
    the 1-bit are in the buffer (of less than [2^32] bytes) and the buffer
    ends after fewer than [zeros] suffix bits [bs], the unsigned
    Exp-Golomb read succeeds: it returns the value of the suffix bits
    read, most significant first, plus [2^zeros - 1], and leaves the
    cursor at the end of the buffer. *)
Theorem getGlm_truncated_suffix (st : BinParser) (zeros : nat) (bs : list bool) :
  0 <= posByte st -> 0 <= posBit st < 8 ->
  buffer_ok st -> bufLen st < 2 ^ 32 ->
  (zeros <= 30)%nat ->
  bits_at (buf st) (bit_offset st) (repeat false zeros ++ true :: bs) ->
  (length bs < zeros)%nat ->
  bit_offset st + Z.of_nat zeros + 1 + Z.of_nat (length bs) = 8 * bufLen st ->
  getGlm st
  = Def (Ok (msb_value bs + 2 ^ Z.of_nat zeros - 1) (at_offset st (8 * bufLen st))).
Proof.
  intros Hp Hb Hbuf Hsmall Hz Hbits Hshort Hend.
  rewrite (getGlm_on_code st zeros (zeros - length bs) bs Hp Hb Hbuf Hsmall Hz Hbits);
    [| lia | right; exact Hend].
  rewrite Hend. reflexivity.
Qed.

(** From bit 4 of the byte [03] the bits are [0011]: two zeros and a
    1-bit ask for a suffix of two bits and one bit, a 1, is left.  The
    read returns [1 + 2^2 - 1 = 4] with the cursor at the end. *)
Lemma getGlm_truncated_suffix_witness :
  getGlm (mkBinParser [3] 1 0 4) = Def (Ok 4 (mkBinParser [3] 1 1 0)).
Proof.
  apply (getGlm_truncated_suffix (mkBinParser [3] 1 0 4) 2 [true]
           ltac:(simpl; lia) ltac:(simpl; lia) eq_refl
           ltac:(simpl; lia) ltac:(lia)
           ltac:(vm_compute; repeat split)
           ltac:(simpl; lia) ltac:(vm_compute; reflexivity)).
Defined.

(** C6, as stated, fails: the read returns a [uint32_t].  In the five
    bytes [00 00 00 00 C0] the prefix has 32 zeros, the 1-bit follows and
    the buffer ends after the seven suffix bits [1000000]; the read does
    not return [64 + 2^32 - 1]. *)
Lemma getGlm_truncated_misses_large_value :
  let st := mkBinParser [0; 0; 0; 0; 192] 5 0 0 in
  let bs := [true; false; false; false; false; false; false] in
  cursor_inv st /\ buffer_ok st /\
  bits_at (buf st) (bit_offset st) (repeat false 32 ++ true :: bs) /\
  (length bs < 32)%nat /\
  bit_offset st + 32 + 1 + Z.of_nat (length bs) = 8 * bufLen st /\
  forall st', getGlm st <> Def (Ok (msb_value bs + 2 ^ 32 - 1) st').
Proof.
  cbv zeta. split; [| split; [| split; [| split; [| split]]]].
  - unfold cursor_inv. simpl. lia.
  - reflexivity.
  - vm_compute. repeat split.
  - simpl. lia.
  - reflexivity.
  - intros st'. vm_compute. discriminate.
Qed.

(** ** Alignment to a multiple of [n] bytes *)

(** [alignBytes] when the aligned position fits the [unsigned int
    alignedByte]: inside the buffer an aligned cursor is left as it is, a
    cursor that is not aligned moves to the next multiple of [n] with bit
    offset 0 if that position is inside the buffer and the call fails
    otherwise; a cursor at or past the end is left as it is. *)
Lemma alignBytes_within_32_bits (st : BinParser) (n : Z) :
  1 <= n < 2 ^ 32 -> 0 <= posByte st ->
  posByte st - posByte st mod n + n < 2 ^ 32 ->
  alignBytes st n =
  if posByte st <? bufLen st then
    if (posByte st mod n =? 0) && (posBit st =? 0) then Def (Ok tt st)
    else if posByte st - posByte st mod n + n <? bufLen st
         then Def (Ok tt {| buf := buf st; bufLen := bufLen st;
                            posByte := posByte st - posByte st mod n + n;
                            posBit := 0 |})
         else Def (Err 1 st)
  else Def (Ok tt st).
Proof.
  intros Hn Hp Hfit. unfold alignBytes, isInBuf.
  destruct (Z.eqb_spec n 0); [lia |].
  destruct (posByte st <? bufLen st); [| reflexivity]. simpl negb. cbv iota.
  pose proof (Z.mod_pos_bound (posByte st) n ltac:(lia)) as Hrem.
  rewrite (wrap32_small (posByte st mod n)) by lia.
  destruct ((posByte st mod n =? 0) && (posBit st =? 0)); [reflexivity |].
  rewrite wrap32_wrap64, wrap32_small by lia.
  destruct (posByte st - posByte st mod n + n <? bufLen st); reflexivity.
Qed.

(** C9 fails on the code. The aligned position is computed from the
    [uint64_t posByte] and stored in an [unsigned int]: in a buffer of
    [2^32] bytes, at byte [2^32 - 2], bit 1, the next multiple of 2 is
    [2^32], which is not inside the buffer, and [alignBytes(2)] returns
    success with the cursor at byte 0, bit 0. *)
Theorem alignBytes_truncates_position (b : list Z) :
  let st := mkBinParser b 4294967296 4294967294 1 in
  posByte st < bufLen st /\
  posBit st <> 0 /\
  bufLen st <= posByte st - posByte st mod 2 + 2 /\
  alignBytes st 2 = Def (Ok tt (mkBinParser b 4294967296 0 0)).
Proof.
  cbv zeta. simpl posByte. simpl bufLen. simpl posBit.
  repeat split; try lia; reflexivity.
Qed.

(** ** Reads and the end of the buffer *)

(** The copy loop runs into the end of the buffer when it is asked for
    more bytes than are left. *)
Lemma copy_bytes_overrun (n : nat) (b : list Z) (pByte : Z) :
  0 <= pByte <= Z.of_nat (length b) -> Z.of_nat (length b) < 2 ^ 32 ->
  Z.of_nat (length b) - pByte < Z.of_nat n ->
  copy_bytes n b pByte = Undef OutOfBounds.
Proof.
  revert pByte. induction n as [| n IH]; intros pByte Hp Hsmall Hn; [lia |].
  cbn [copy_bytes]. destruct (Z.eq_dec pByte (Z.of_nat (length b))) as [-> | Hne].
  - rewrite load_Undef by lia. reflexivity.
  - destruct (load_in_range b pByte ltac:(lia)) as (x & ->). cbn [bind].
    rewrite wrap32_small by lia. rewrite IH by lia. reflexivity.
Qed.

(** C10 fails on the code. The capacity check stores the next byte
    position in an [unsigned int]: in a buffer of ten bytes with the
    cursor at byte 5, a byte-run read of [2^32 - 3] bytes computes the
    position [5 + 2^32 - 3], keeps [2], passes the check, and the copy
    loop reads [buf[10]]. *)
Theorem getBytes_reads_past_end :
  let st := mkBinParser [1; 2; 3; 4; 5; 6; 7; 8; 9; 10] 10 5 0 in
  cursor_inv st /\ buffer_ok st /\ op_typed (OpGetBytes 4294967293) /\
  BinParser_hasRest st 4294967293 0 = true /\
  run (OpGetBytes 4294967293) st = Undef OutOfBounds.
Proof.
  cbv zeta. split; [| split; [| split; [| split]]].
  - unfold cursor_inv. simpl. lia.
  - reflexivity.
  - simpl. unfold uint. lia.
  - vm_compute. reflexivity.
  - assert (Hrest : hasRest 5 0 4294967293 0 10 = true) by (vm_compute; reflexivity).
    unfold run, run_from, forget, BinParser_getBytes, isByteAligned.
    cbn [posByte posBit bufLen buf]. rewrite Hrest.
    change (0 =? 0) with true. cbn [negb].
    change (wrap32 5) with 5.
    rewrite copy_bytes_overrun; [reflexivity | | |]; simpl length; lia.
Qed.

(** The reads that stay inside the buffer: the Exp-Golomb loops test
    [posByte < bufLen] before each access, whatever the state. *)
Lemma glm_prefix_inside (fuel : nat) (b : list Z) (len pByte pBit zeros : Z) :
  len = Z.of_nat (length b) -> 0 <= pByte ->
  glm_prefix fuel b len pByte pBit zeros <> Undef OutOfBounds.
Proof.
  intros Hlen. revert pByte pBit zeros.
  induction fuel as [| fuel IH]; intros pByte pBit zeros Hp; cbn [glm_prefix];
    [discriminate |].
  destruct (Z.ltb_spec pByte len); [| discriminate].
  destruct (len <=? pByte); [discriminate |].
  unfold bit_at. destruct (load_in_range b pByte ltac:(lia)) as (x & ->).
  cbn [bind]. destruct (32 <=? wrap32 (7 - pBit)); cbn [bind]; [discriminate |].
  match goal with |- context [?c =? 1] => destruct (c =? 1) end; [discriminate |].
  apply IH. apply wrap32_range.
Qed.

Lemma glm_suffix_inside (n : nat) (b : list Z) (len pByte pBit tmpVal : Z) :
  len = Z.of_nat (length b) -> 0 <= pByte ->
  glm_suffix n b len pByte pBit tmpVal <> Undef OutOfBounds.
Proof.
  intros Hlen. revert pByte pBit tmpVal.
  induction n as [| n IH]; intros pByte pBit tmpVal Hp; cbn [glm_suffix];
    [discriminate |].
  destruct (Z.ltb_spec pByte len); [| discriminate].
  destruct (len <=? pByte); [discriminate |].
  unfold bit_at. destruct (load_in_range b pByte ltac:(lia)) as (x & ->).
  cbn [bind]. destruct (32 <=? wrap32 (7 - pBit)); cbn [bind]; [discriminate |].
  apply IH. apply wrap32_range.
Qed.

Lemma getGlm_inside (st : BinParser) :
  buffer_ok st -> getGlm st <> Undef OutOfBounds.
Proof.
  intros Hbuf. unfold getGlm, getGlm_from.
  pose proof (glm_prefix_inside (glm_fuel st) (buf st) (bufLen st)
                (wrap32 (posByte st)) (posBit st) 0 Hbuf
                (proj1 (wrap32_range _))) as H1.
  destruct (glm_prefix _ _ _ _ _ _) as [[[[p1 b1] z1] |] | u |]; cbn [bind];
    try discriminate; [| congruence].
  destruct (bufLen st <=? p1); [discriminate |].
  pose proof (glm_suffix_inside (Z.to_nat z1) (buf st) (bufLen st)
                (next_byte p1 b1) (next_bit b1) 0 Hbuf
                (proj1 (wrap32_range _))) as H2.
  destruct (glm_suffix _ _ _ _ _ _) as [[[[p2 b2] t2] |] | u |]; cbn [bind];
    try discriminate; [| congruence].
  destruct (31 <=? z1); discriminate.
Qed.

Lemma bit_at_returns (b : list Z) (pByte pBit : Z) :
  bit_at b pByte pBit <> Diverge.
Proof.
  unfold bit_at, load, bind. destruct (pByte <? 0); [discriminate |].
  destruct (nth_error b (Z.to_nat pByte)); [| discriminate].
  destruct (32 <=? wrap32 (7 - pBit)); discriminate.
Qed.

(** The prefix loop leaves within its fuel in a buffer of less than
    [2^32] bytes. *)
Lemma glm_prefix_terminates (fuel : nat) (b : list Z) (len pByte pBit zeros : Z) :
  len < 2 ^ 32 -> 0 <= pByte -> 0 <= pBit < 8 ->
  Z.max 0 (8 * (len - pByte) - pBit) < Z.of_nat fuel ->
  glm_prefix fuel b len pByte pBit zeros <> Diverge.
Proof.
  intros Hsmall. revert pByte pBit zeros.
  induction fuel as [| fuel IH]; intros pByte pBit zeros Hp Hb Hfuel; [lia |].
  cbn [glm_prefix].
  destruct (Z.ltb_spec pByte len); [| discriminate].
  destruct (len <=? pByte); [discriminate |].
  destruct (bit_at b pByte pBit) as [c | u |] eqn:E; cbn [bind]; try discriminate.
  - destruct (c =? 1); [discriminate |].
    destruct (next_cursor_le pByte pBit Hp Hb) as (H1 & H2 & _).
    apply IH; try assumption.
    rewrite next_byte_eq, next_bit_eq by lia.
    rewrite wrap32_small by lia. lia.
  - exfalso. revert E. apply bit_at_returns.
Qed.

Lemma glm_suffix_terminates (n : nat) (b : list Z) (len pByte pBit tmpVal : Z) :
  glm_suffix n b len pByte pBit tmpVal <> Diverge.
Proof.
  revert pByte pBit tmpVal.
  induction n as [| n IH]; intros pByte pBit tmpVal; cbn [glm_suffix];
    [discriminate |].
  destruct (pByte <? len); [| discriminate].
  destruct (len <=? pByte); [discriminate |].
  pose proof (bit_at_returns b pByte pBit) as Hbit.
  destruct (bit_at b pByte pBit); cbn [bind]; try discriminate; [| congruence].
  apply IH.
Qed.

(** From any bit offset: after its first iteration the scan has a bit
    offset below 8. *)
Lemma glm_prefix_terminates_any (fuel : nat) (b : list Z) (len pByte pBit zeros : Z) :
  len < 2 ^ 32 -> 0 <= pByte ->
  Z.max 0 (8 * len) + 1 < Z.of_nat fuel ->
  glm_prefix fuel b len pByte pBit zeros <> Diverge.
Proof.
  intros Hsmall Hp Hfuel. destruct fuel as [| fuel]; [lia |].
  cbn [glm_prefix].
  destruct (Z.ltb_spec pByte len); [| discriminate].
  destruct (len <=? pByte); [discriminate |].
  pose proof (bit_at_returns b pByte pBit) as Hbit.
  destruct (bit_at b pByte pBit) as [c | u |]; cbn [bind];
    try discriminate; [| congruence].
  destruct (c =? 1); [discriminate |].
  pose proof (wrap32_range (pByte + Z.shiftr (wrap32 (pBit + 1)) 3)) as Hr.
  apply glm_prefix_terminates; try assumption.
  - apply Hr.
  - unfold next_bit. rewrite land7. lia.
  - unfold next_bit, next_byte. rewrite land7. lia.
Qed.

(** The unsigned Exp-Golomb read returns on every buffer of less than
    [2^32] bytes, from every state, when its scan is given
    [8 * bufLen + 2] tests or more. *)
Lemma getGlm_from_terminates (fuel : nat) (st : BinParser) :
  bufLen st < 2 ^ 32 ->
  Z.max 0 (8 * bufLen st) + 2 <= Z.of_nat fuel ->
  getGlm_from fuel st <> Diverge.
Proof.
  intros Hsmall Hfuel. unfold getGlm_from.
  pose proof (wrap32_range (posByte st)) as Hr.
  pose proof (glm_prefix_terminates_any fuel (buf st)
                (bufLen st) (wrap32 (posByte st)) (posBit st) 0 Hsmall
                (proj1 Hr) ltac:(lia)) as H1.
  destruct (glm_prefix _ _ _ _ _ _) as [[[[p1 b1] z1] |] | u |] eqn:E1; cbn [bind];
    try discriminate; [| congruence].
  destruct (bufLen st <=? p1); [discriminate |].
  pose proof (glm_suffix_terminates (Z.to_nat z1) (buf st) (bufLen st)
                (next_byte p1 b1) (next_bit b1) 0) as H2.
  destruct (glm_suffix _ _ _ _ _ _) as [[[[p2 b2] t2] |] | u |]; cbn [bind];
    try discriminate; [| congruence].
  destruct (31 <=? z1); discriminate.
Qed.

Lemma getGlm_terminates (st : BinParser) :
  bufLen st < 2 ^ 32 -> getGlm st <> Diverge.
Proof.
  intros Hsmall. apply getGlm_from_terminates; [exact Hsmall |].
  unfold glm_fuel. lia.
Qed.

(** A scan that has left its loop does the same with more fuel. *)
Lemma glm_prefix_more_fuel (fuel extra : nat) (b : list Z) (len pByte pBit zeros : Z) :
  glm_prefix fuel b len pByte pBit zeros <> Diverge ->
  glm_prefix (fuel + extra) b len pByte pBit zeros
  = glm_prefix fuel b len pByte pBit zeros.
Proof.
  revert pByte pBit zeros.
  induction fuel as [| fuel IH]; intros pByte pBit zeros H;
    [exfalso; apply H; reflexivity |].
  cbn [glm_prefix Nat.add] in *.
  destruct (pByte <? len); [| reflexivity].
  destruct (len <=? pByte); [reflexivity |].
  destruct (bit_at b pByte pBit) as [c | u |]; cbn [bind] in *; try reflexivity.
  destruct (c =? 1); [reflexivity |]. apply IH. exact H.
Qed.

(** On a buffer of less than [2^32] bytes the result of the Exp-Golomb
    reads does not depend on the fuel, from [glm_fuel] on. *)
Lemma getGlm_from_more_fuel (extra : nat) (st : BinParser) :
  bufLen st < 2 ^ 32 ->
  getGlm_from (glm_fuel st + extra) st = getGlm st /\
  getSGlm_from (glm_fuel st + extra) st = getSGlm st.
Proof.
  intros Hsmall.
  assert (H : getGlm_from (glm_fuel st + extra) st = getGlm st).
  { unfold getGlm, getGlm_from. rewrite glm_prefix_more_fuel; [reflexivity |].
    pose proof (wrap32_range (posByte st)) as Hr.
    apply glm_prefix_terminates_any; [exact Hsmall | apply Hr |].
    unfold glm_fuel. lia. }
  split; [exact H |]. unfold getSGlm, getSGlm_from. rewrite H. reflexivity.
Qed.

(** The fixed-width loops and the copy loop have a counter: they end. *)
Lemma read_bits_terminates (n : nat) (b : list Z) (pByte pBit tmpVal : Z) :
  read_bits n b pByte pBit tmpVal <> Diverge.
Proof.
  revert pByte pBit tmpVal.
  induction n as [| n IH]; intros pByte pBit tmpVal; cbn [read_bits];
    [discriminate |].
  pose proof (bit_at_returns b pByte pBit) as Hbit.
  destruct (bit_at b pByte pBit); cbn [bind]; try discriminate; [| congruence].
  apply IH.
Qed.

Lemma copy_bytes_terminates (n : nat) (b : list Z) (pByte : Z) :
  copy_bytes n b pByte <> Diverge.
Proof.
  revert pByte. induction n as [| n IH]; intros pByte; cbn [copy_bytes];
    [discriminate |].
  unfold load. destruct (pByte <? 0); cbn [bind]; [discriminate |].
  destruct (nth_error b (Z.to_nat pByte)); cbn [bind]; [| discriminate].
  specialize (IH (wrap32 (pByte + 1))).
  destruct (copy_bytes n b (wrap32 (pByte + 1))); cbn [bind];
    try discriminate; congruence.
Qed.

Lemma forget_returns {A : Type} (call : exec (ret A)) :
  call <> Diverge -> forget call <> Diverge.
Proof.
  intros H. unfold forget. destruct call as [[v s | c s] | u |]; cbn [bind];
    try discriminate; congruence.
Qed.

(** On a buffer of less than [2^32] bytes every public operation returns
    (or has undefined behaviour), from every state: [run] never comes out
    as [Diverge]. *)
Lemma run_returns (o : op) (st : BinParser) :
  bufLen st < 2 ^ 32 -> run o st <> Diverge.
Proof.
  intros Hsmall. unfold run.
  destruct o; cbn [run_from]; try apply forget_returns.
  - discriminate.
  - unfold getBool. destruct (negb _); [discriminate |].
    pose proof (bit_at_returns (buf st) (posByte st) (posBit st)) as Hbit.
    destruct (bit_at _ _ _); cbn [bind]; try discriminate; congruence.
  - unfold getUInt32. destruct (bits =? 0); [discriminate |].
    destruct (negb _); [discriminate |].
    pose proof (read_bits_terminates (Z.to_nat bits) (buf st)
                  (wrap32 (posByte st)) (posBit st) 0) as H.
    destruct (read_bits _ _ _ _ _); cbn [bind]; try discriminate; congruence.
  - unfold getUInt64. destruct (bits =? 0); [discriminate |].
    destruct (negb _); [discriminate |].
    pose proof (read_bits_terminates (Z.to_nat bits) (buf st)
                  (wrap32 (posByte st)) (posBit st) 0) as H.
    destruct (read_bits _ _ _ _ _); cbn [bind]; try discriminate; congruence.
  - unfold getInt32, getUInt32. destruct (bits =? 0); cbn [bind].
    { unfold castInt32. repeat match goal with |- context [if ?c then _ else _] => destruct c end;
      discriminate. }
    destruct (negb _); [discriminate |].
    pose proof (read_bits_terminates (Z.to_nat bits) (buf st)
                  (wrap32 (posByte st)) (posBit st) 0) as H.
    destruct (read_bits _ _ _ _ _); cbn [bind]; try discriminate; [| congruence].
    unfold castInt32. repeat match goal with |- context [if ?c then _ else _] => destruct c end;
      discriminate.
  - unfold getInt64, getUInt64. destruct (bits =? 0); cbn [bind].
    { unfold castInt64. repeat match goal with |- context [if ?c then _ else _] => destruct c end;
      discriminate. }
    destruct (negb _); [discriminate |].
    pose proof (read_bits_terminates (Z.to_nat bits) (buf st)
                  (wrap32 (posByte st)) (posBit st) 0) as H.
    destruct (read_bits _ _ _ _ _); cbn [bind]; try discriminate; [| congruence].
    unfold castInt64. repeat match goal with |- context [if ?c then _ else _] => destruct c end;
      discriminate.
  - unfold BinParser_getBytes. destruct (negb _); [discriminate |].
    destruct (negb _); [discriminate |].
    pose proof (copy_bytes_terminates (Z.to_nat bytes) (buf st)
                  (wrap32 (posByte st))) as H.
    destruct (copy_bytes _ _ _); cbn [bind]; try discriminate; congruence.
  - apply getGlm_terminates. exact Hsmall.
  - fold (getSGlm st). unfold getSGlm, getSGlm_from. fold (getGlm st).
    pose proof (getGlm_terminates st Hsmall) as H.
    destruct (getGlm st) as [[v s | c s] | u |]; cbn [bind];
      try discriminate; [| congruence].
    destruct (negb _); discriminate.
  - unfold alignByte. repeat match goal with |- context [if ?c then _ else _] => destruct c end;
      discriminate.
  - unfold alignBytes. repeat match goal with |- context [if ?c then _ else _] => destruct c end;
      discriminate.
  - unfold seek_. repeat match goal with |- context [if ?c then _ else _] => destruct c end;
      discriminate.
  - unfold BinParser_skip, seek_. repeat match goal with |- context [if ?c then _ else _] => destruct c end;
      discriminate.
  - discriminate.
Qed.

(** When the capacity check computes with the exact numbers, a passed
    check means that the span asked for is in the buffer. *)
Lemma hasRest_exact (st : BinParser) (bytes bits : Z) :
  cursor_inv st -> 0 <= bytes -> 0 <= bits ->
  posBit st + bits < 2 ^ 32 -> no_wrap st bytes bits ->
  hasRest (posByte st) (posBit st) bytes bits (bufLen st) = true ->
  8 * (posByte st + bytes) + posBit st + bits <= 8 * bufLen st.
Proof.
  unfold cursor_inv, no_wrap, hasRest. intros (Hp & Hb & _) Hbytes Hbits Hsum.
  rewrite wrap32_wrap64, shiftr3, land7.
  rewrite (wrap32_small (posBit st + bits)) by lia. intros Hfit.
  rewrite wrap32_small by lia.
  destruct (Z.ltb_spec (posByte st + bytes + (posBit st + bits) / 8) (bufLen st));
    [intros _; lia |].
  destruct (Z.eqb_spec (posByte st + bytes + (posBit st + bits) / 8) (bufLen st));
    [| discriminate].
  destruct (Z.eqb_spec ((posBit st + bits) mod 8) 0); [| discriminate].
  intros _. lia.
Qed.

Lemma copy_bytes_defined (n : nat) (b : list Z) (pByte : Z) :
  0 <= pByte -> pByte + Z.of_nat n <= Z.of_nat (length b) ->
  exists v, copy_bytes n b pByte = Def v.
Proof.
  revert pByte. induction n as [| n IH]; intros pByte Hp Hn; cbn [copy_bytes].
  - exists []. reflexivity.
  - destruct (load_in_range b pByte ltac:(lia)) as (x & ->). cbn [bind].
    pose proof (wrap32_range (pByte + 1)) as Hr.
    pose proof (wrap32_le (pByte + 1) ltac:(lia)) as Hle.
    destruct (IH (wrap32 (pByte + 1)) ltac:(lia) ltac:(lia)) as (v & ->).
    eexists. reflexivity.
Qed.

Lemma forget_inside {A : Type} (call : exec (ret A)) :
  call <> Undef OutOfBounds -> forget call <> Undef OutOfBounds.
Proof.
  unfold forget. destruct call as [[v s | c s] | u |]; cbn [bind];
    intros H; try discriminate. congruence.
Qed.

Lemma getUInt32_inside (st : BinParser) (bits : Z) :
  cursor_inv st -> buffer_ok st -> 0 <= bits ->
  posBit st + bits < 2 ^ 32 -> no_wrap st 0 bits ->
  getUInt32 st bits <> Undef OutOfBounds.
Proof.
  intros Hinv Hbuf Hbits Hsum Hfit. unfold getUInt32.
  destruct (bits =? 0); [discriminate |].
  destruct (hasRest _ _ _ _ _) eqn:Hrest; cbn [negb]; [| discriminate].
  pose proof (hasRest_exact st 0 bits Hinv ltac:(lia) Hbits Hsum Hfit Hrest) as Hin.
  destruct Hinv as (Hp & Hb & _). unfold buffer_ok in Hbuf.
  pose proof (wrap32_range (posByte st)) as Hr.
  pose proof (wrap32_le (posByte st) Hp) as Hle.
  destruct (read_bits_defined (Z.to_nat bits) (buf st) (wrap32 (posByte st))
              (posBit st) 0 ltac:(lia) Hb ltac:(lia)) as (v & ->).
  discriminate.
Qed.

Lemma getUInt64_inside (st : BinParser) (bits : Z) :
  cursor_inv st -> buffer_ok st -> 0 <= bits ->
  posBit st + bits < 2 ^ 32 -> no_wrap st 0 bits ->
  getUInt64 st bits <> Undef OutOfBounds.
Proof. exact (getUInt32_inside st bits). Qed.

(** Within the exact range of the capacity check no public operation
    reads the buffer at an index at or past its length. *)
Lemma reads_inside_within_exact_capacity (o : op) (st : BinParser) :
  op_typed o -> cursor_inv st -> buffer_ok st -> exact_capacity o st ->
  run o st <> Undef OutOfBounds.
Proof.
  intros Hty Hinv Hbuf Hcap.
  destruct o; unfold run in *; cbn [run_from op_typed exact_capacity] in *; unfold uint in *;
    try (apply forget_inside).
  - discriminate.
  - unfold getBool.
    destruct (hasRest _ _ _ _ _) eqn:Hrest; cbn [negb]; [| discriminate].
    pose proof (hasRest_exact st 0 1 Hinv ltac:(lia) ltac:(lia)
                  ltac:(unfold cursor_inv in Hinv; pow_literals; lia) Hcap Hrest) as Hin.
    destruct Hinv as (Hp & Hb & _). unfold buffer_ok in Hbuf.
    destruct (bit_at_in_range (buf st) (posByte st) (posBit st) ltac:(lia) Hb)
      as (c & ->).
    discriminate.
  - apply getUInt32_inside; tauto || lia.
  - apply getUInt64_inside; tauto || lia.
  - unfold getInt32.
    pose proof (getUInt32_inside st bits Hinv Hbuf ltac:(lia)
                  (proj1 Hcap) (proj2 Hcap)) as H.
    destruct (getUInt32 st bits) as [[v s | c s] | u |]; cbn [bind];
      try discriminate; [| exact H].
    unfold castInt32. repeat (destruct (_ <=? _); try discriminate).
    destruct (negb _); discriminate.
  - unfold getInt64.
    pose proof (getUInt64_inside st bits Hinv Hbuf ltac:(lia)
                  (proj1 Hcap) (proj2 Hcap)) as H.
    destruct (getUInt64 st bits) as [[v s | c s] | u |]; cbn [bind];
      try discriminate; [| exact H].
    unfold castInt64. repeat (destruct (_ <=? _); try discriminate).
    destruct (negb _); discriminate.
  - unfold BinParser_getBytes, isByteAligned.
    destruct (Z.eqb_spec (posBit st) 0) as [Hal | Hal]; cbn [negb]; [| discriminate].
    destruct (hasRest _ _ _ _ _) eqn:Hrest; cbn [negb]; [| discriminate].
    pose proof (hasRest_exact st bytes 0 Hinv ltac:(lia) ltac:(lia)
                  ltac:(unfold cursor_inv in Hinv; pow_literals; lia) Hcap Hrest) as Hin.
    destruct Hinv as (Hp & Hb & _). unfold buffer_ok in Hbuf.
    pose proof (wrap32_range (posByte st)) as Hr.
    pose proof (wrap32_le (posByte st) Hp) as Hle.
    destruct (copy_bytes_defined (Z.to_nat bytes) (buf st) (wrap32 (posByte st))
                ltac:(lia) ltac:(lia)) as (v & ->).
    discriminate.
  - apply getGlm_inside. exact Hbuf.
  - unfold getSGlm, getSGlm_from. fold (getGlm st). pose proof (getGlm_inside st Hbuf) as H.
    destruct (getGlm st) as [[v s | c s] | u |]; cbn [bind];
      try discriminate; [| exact H].
    destruct (negb _); discriminate.
  - unfold alignByte. repeat (destruct (negb _); try discriminate).
  - unfold alignBytes. destruct (bytes =? 0); [discriminate |].
    destruct (negb _); [discriminate |].
    destruct (_ && _); [discriminate |].
    destruct (negb _); discriminate.
  - unfold seek_. destruct (negb _); discriminate.
  - unfold BinParser_skip, seek_. destruct (negb _); discriminate.
  - discriminate.
Qed.

(** ** The 64-bit unsigned read *)

Lemma bits_at_inside (b : list Z) (bs : list bool) (k : Z) :
  bits_at b k bs -> bs <> [] ->
  0 <= k /\ k + Z.of_nat (length bs) <= 8 * Z.of_nat (length b).
Proof.
  revert k. induction bs as [| c cs IH]; intros k Hbits Hne; [congruence |].
  cbn [bits_at] in Hbits. destruct Hbits as (Hbit & Hbits).
  destruct (buffer_bit_Some _ _ _ Hbit) as (Hk & Hin & _).
  change (length (c :: cs)) with (S (length cs)).
  destruct cs as [| c' cs'].
  - simpl length. lia.
  - destruct (IH (k + 1) Hbits ltac:(discriminate)) as (_ & H). lia.
Qed.

(** The read loop returns the bits [bs], most significant first, modulo
    [2^32]: the accumulator is a [uint32_t]. *)
Lemma read_bits_run (b : list Z) (bs : list bool) (k tmpVal : Z) :
  Z.of_nat (length b) < 2 ^ 32 ->
  bits_at b k bs -> 0 <= k -> 0 <= tmpVal < 2 ^ 32 ->
  read_bits (length bs) b (k / 8) (k mod 8) tmpVal
  = Def ((tmpVal * 2 ^ Z.of_nat (length bs) + msb_value bs) mod 2 ^ 32).
Proof.
  intros Hsmall. revert k tmpVal.
  induction bs as [| c cs IH]; intros k tmpVal Hbits Hk Ht.
  - simpl. rewrite Z.mul_1_r, Z.add_0_r, Z.mod_small by lia. reflexivity.
  - cbn [bits_at] in Hbits. destruct Hbits as (Hbit & Hbits).
    destruct (buffer_bit_Some _ _ _ Hbit) as (_ & Hin & Hat).
    change (length (c :: cs)) with (S (length cs)).
    change (msb_value (c :: cs))
      with (Z.b2z c * 2 ^ Z.of_nat (length cs) + msb_value cs).
    replace (Z.of_nat (S (length cs))) with (Z.of_nat (length cs) + 1) by lia.
    cbn [read_bits]. rewrite Hat. cbn [bind].
    destruct (next_cursor_exact k Hk ltac:(lia)) as (-> & ->).
    assert (Hc : Z.b2z c = 0 \/ Z.b2z c = 1) by (destruct c; simpl; lia).
    rewrite push_bit_eq by exact Hc.
    rewrite IH; [| exact Hbits | lia | pow_literals; lia].
    f_equal. rewrite pow2_succ by lia.
    replace (2 * (tmpVal mod 2 ^ 31) + Z.b2z c)
      with ((2 * tmpVal + Z.b2z c) mod 2 ^ 32) by (pow_literals; lia).
    set (X := 2 * tmpVal + Z.b2z c). set (P := 2 ^ Z.of_nat (length cs)).
    rewrite <- (Z.add_mod_idemp_l (X mod 2 ^ 32 * P)) by (pow_literals; lia).
    rewrite Z.mul_mod_idemp_l, Z.add_mod_idemp_l by (pow_literals; lia).
    f_equal. subst X. lia.
Qed.

Lemma advance_bits (st : BinParser) (bits : Z) :
  0 <= posByte st -> 0 <= posBit st < 8 -> 0 <= bits ->
  posBit st + bits < 2 ^ 32 -> posByte st + (posBit st + bits) / 8 < 2 ^ 64 ->
  BIN_PARSER_ADVANCE_POS st 0 bits = at_offset st (bit_offset st + bits).
Proof.
  intros Hp Hb Hbits Hsum Hfit. unfold BIN_PARSER_ADVANCE_POS, at_offset, bit_offset.
  rewrite shiftr3, land7, (wrap32_small (posBit st + bits)) by lia.
  rewrite Z.add_0_r, (wrap64_small (posByte st)) by lia.
  rewrite wrap64_small by lia.
  f_equal; lia.
Qed.

(** [getUInt64] on the bits [bs] at the cursor (at least one, and at most
    64): the call succeeds, returns the number [bs] denotes modulo [2^32]
    and moves the cursor past the bits.  For a width up to 32 this is the
    number itself. *)
Lemma getUInt64_value (st : BinParser) (bs : list bool) :
  0 <= posByte st -> 0 <= posBit st < 8 ->
  buffer_ok st -> bufLen st < 2 ^ 32 ->
  (1 <= length bs <= 64)%nat ->
  bits_at (buf st) (bit_offset st) bs ->
  getUInt64 st (Z.of_nat (length bs))
  = Def (Ok (msb_value bs mod 2 ^ 32)
            (at_offset st (bit_offset st + Z.of_nat (length bs)))).
Proof.
  intros Hp Hb Hbuf Hsmall Hn Hbits. unfold buffer_ok in Hbuf.
  destruct (bits_at_inside _ _ _ Hbits ltac:(destruct bs; simpl in *; [lia | discriminate]))
    as (Hk & Hin).
  unfold bit_offset in *. unfold getUInt64.
  destruct (Z.eqb_spec (Z.of_nat (length bs)) 0); [lia |].
  rewrite hasRest_remaining by (pow_literals; lia). cbn [negb].
  rewrite Nat2Z.id, wrap32_small by lia.
  pose proof (read_bits_run (buf st) bs (8 * posByte st + posBit st) 0
                ltac:(lia) Hbits Hk ltac:(pow_literals; lia)) as Hread.
  replace ((8 * posByte st + posBit st) / 8) with (posByte st) in Hread by lia.
  replace ((8 * posByte st + posBit st) mod 8) with (posBit st) in Hread by lia.
  rewrite Hread. cbn [bind].
  rewrite Z.mul_0_l, Z.add_0_l.
  rewrite advance_bits by (pow_literals; lia). reflexivity.
Qed.

Lemma getUInt64_exact_upto_32 (st : BinParser) (bs : list bool) :
  0 <= posByte st -> 0 <= posBit st < 8 ->
  buffer_ok st -> bufLen st < 2 ^ 32 ->
  (1 <= length bs <= 32)%nat ->
  bits_at (buf st) (bit_offset st) bs ->
  getUInt64 st (Z.of_nat (length bs))
  = Def (Ok (msb_value bs) (at_offset st (bit_offset st + Z.of_nat (length bs)))).
Proof.
  intros Hp Hb Hbuf Hsmall Hn Hbits.
  rewrite getUInt64_value by (assumption || lia).
  pose proof (msb_value_range bs) as Hv.
  pose proof (pow2_le (Z.of_nat (length bs)) 32 ltac:(lia)).
  rewrite Z.mod_small by lia. reflexivity.
Qed.

(** Whatever the width asked for, [getUInt64] returns a number below
    [2^32]. *)
Lemma read_bits_below (n : nat) (b : list Z) (pByte pBit tmpVal v : Z) :
  0 <= tmpVal < 2 ^ 32 ->
  read_bits n b pByte pBit tmpVal = Def v -> 0 <= v < 2 ^ 32.
Proof.
  revert pByte pBit tmpVal. induction n as [| n IH]; intros pByte pBit tmpVal Ht; simpl.
  - intros H. injection H as <-. exact Ht.
  - unfold bind. destruct (bit_at b pByte pBit) as [c | |] eqn:E; try discriminate.
    apply IH. rewrite push_bit_eq by (eapply bit_at_is_bit; eassumption).
    apply bit_at_is_bit in E. pow_literals. lia.
Qed.

Lemma getUInt64_below (st st' : BinParser) (bits v : Z) :
  getUInt64 st bits = Def (Ok v st') -> 0 <= v < 2 ^ 32.
Proof.
  unfold getUInt64, bind.
  destruct (bits =? 0).
  - intros H. injection H as <- _. pow_literals. lia.
  - destruct (negb _); [discriminate |].
    destruct (read_bits _ _ _ _ _) as [t | |] eqn:E; try discriminate.
    intros H. injection H as <- _.
    eapply read_bits_below; [| exact E]. pow_literals. lia.
Qed.

(** C1 fails on the code. [getUInt64] accumulates into a [uint32_t]: on the
    five bytes [80 00 00 00 00], whose first 33 bits are a 1 followed by 32
    zeros (the number [2^32]), a read of 33 bits from the start passes the
    capacity check, moves the cursor 33 bits on and returns 0. *)
Theorem getUInt64_keeps_32_bits :
  let st := mkBinParser [128; 0; 0; 0; 0] 5 0 0 in
  let bs := true :: repeat false 32 in
  cursor_inv st /\ buffer_ok st /\
  BinParser_hasRest st 0 33 = true /\
  bits_at (buf st) (bit_offset st) bs /\
  msb_value bs = 2 ^ 32 /\
  getUInt64 st 33 = Def (Ok 0 (at_offset st (bit_offset st + 33))).
Proof.
  cbv zeta. unfold cursor_inv, buffer_ok. simpl posByte. simpl posBit.
  simpl bufLen. simpl buf.
  repeat split; try lia; reflexivity.
Qed.

(** * Further properties of the reader *)

(** ** The capacity check *)

Lemma at_offset_offset (st : BinParser) (k : Z) :
  bit_offset (at_offset st k) = k.
Proof. unfold bit_offset, at_offset. cbn [posByte posBit]. lia. Qed.

Lemma at_offset_cursor (st : BinParser) (k : Z) :
  0 <= k -> 0 <= posByte (at_offset st k) /\ 0 <= posBit (at_offset st k) < 8.
Proof. intros Hk. unfold at_offset. cbn [posByte posBit]. lia. Qed.

Lemma hasRest_exact_false (st : BinParser) (bytes bits : Z) :
  cursor_inv st -> 0 <= bytes -> 0 <= bits ->
  posBit st + bits < 2 ^ 32 -> no_wrap st bytes bits ->
  8 * bufLen st < 8 * (posByte st + bytes) + posBit st + bits ->
  hasRest (posByte st) (posBit st) bytes bits (bufLen st) = false.
Proof.
  unfold cursor_inv, no_wrap, hasRest. intros (Hp & Hb & _) Hbytes Hbits Hsum.
  rewrite wrap32_wrap64, shiftr3, land7.
  rewrite (wrap32_small (posBit st + bits)) by lia. intros Hfit Hover.
  rewrite wrap32_small by lia.
  destruct (Z.ltb_spec (posByte st + bytes + (posBit st + bits) / 8) (bufLen st));
    [lia |].
  destruct (Z.eqb_spec (posByte st + bytes + (posBit st + bits) / 8) (bufLen st));
    [| reflexivity].
  destruct (Z.eqb_spec ((posBit st + bits) mod 8) 0); [lia | reflexivity].
Qed.

Lemma hasRest_exact_true (st : BinParser) (bytes bits : Z) :
  cursor_inv st -> 0 <= bytes -> 0 <= bits ->
  posBit st + bits < 2 ^ 32 -> no_wrap st bytes bits ->
  8 * (posByte st + bytes) + posBit st + bits <= 8 * bufLen st ->
  hasRest (posByte st) (posBit st) bytes bits (bufLen st) = true.
Proof.
  unfold cursor_inv, no_wrap, hasRest. intros (Hp & Hb & _) Hbytes Hbits Hsum.
  rewrite wrap32_wrap64, shiftr3, land7.
  rewrite (wrap32_small (posBit st + bits)) by lia. intros Hfit Hle.
  rewrite wrap32_small by lia.
  destruct (Z.ltb_spec (posByte st + bytes + (posBit st + bits) / 8) (bufLen st));
    [reflexivity |].
  destruct (Z.eqb_spec (posByte st + bytes + (posBit st + bits) / 8) (bufLen st));
    [| lia].
  destruct (Z.eqb_spec ((posBit st + bits) mod 8) 0); [reflexivity | lia].
Qed.

(** X1. When its 32-bit arithmetic does not wrap, the capacity check
    answers true exactly when the span of [bytes] bytes and [bits] bits
    from the cursor ends at or before the end of the buffer. *)
Theorem hasRest_iff_span_fits (st : BinParser) (bytes bits : Z) :
  cursor_inv st -> 0 <= bytes -> 0 <= bits ->
  posBit st + bits < 2 ^ 32 -> no_wrap st bytes bits ->
  (BinParser_hasRest st bytes bits = true <->
   8 * (posByte st + bytes) + posBit st + bits <= 8 * bufLen st).
Proof.
  intros Hinv Hbytes Hbits Hsum Hfit. unfold BinParser_hasRest. split.
  - apply hasRest_exact; assumption.
  - apply hasRest_exact_true; assumption.
Qed.

(** From bit 3 of a one-byte buffer five bits fit. *)
Lemma hasRest_iff_span_fits_witness :
  BinParser_hasRest (mkBinParser [180] 1 0 3) 0 5 = true <->
  8 * (0 + 0) + 3 + 5 <= 8 * 1.
Proof.
  apply (hasRest_iff_span_fits (mkBinParser [180] 1 0 3) 0 5).
  - unfold cursor_inv. simpl. lia.
  - lia.
  - lia.
  - simpl. lia.
  - unfold no_wrap. simpl. vm_compute. reflexivity.
Defined.

(** ** Fixed-width reads on the bits of the buffer *)


(** X2. [getUInt32] on the bits [bs] at the cursor, one to 32 of them,
    in a buffer of less than [2^32] bytes: the call succeeds, returns the
    number [bs] denotes most significant bit first, and leaves the cursor
    just after the bits. *)
Theorem getUInt32_reads_msb (st : BinParser) (bs : list bool) :
  0 <= posByte st -> 0 <= posBit st < 8 ->
  buffer_ok st -> bufLen st < 2 ^ 32 ->
  (1 <= length bs <= 32)%nat ->
  bits_at (buf st) (bit_offset st) bs ->
  getUInt32 st (Z.of_nat (length bs))
  = Def (Ok (msb_value bs) (at_offset st (bit_offset st + Z.of_nat (length bs)))).
Proof. exact (getUInt64_exact_upto_32 st bs). Qed.

(** The first three bits of [B4] are [101]. *)
Lemma getUInt32_reads_msb_witness :
  getUInt32 (mkBinParser [180] 1 0 0) 3 = Def (Ok 5 (mkBinParser [180] 1 0 3)).
Proof.
  apply (getUInt32_reads_msb (mkBinParser [180] 1 0 0) [true; false; true]
           ltac:(simpl; lia) ltac:(simpl; lia) eq_refl ltac:(simpl; lia)
           ltac:(simpl; lia) ltac:(vm_compute; repeat split)).
Defined.

(** X3. In a buffer of less than [2^32] bytes whose [bufLen] is its
    length, from a cursor with [posByte >= 0] and a bit offset in
    [[0, 8)]: [getUInt64] on the bits [bs] at the cursor, one to 64 of
    them, succeeds and moves the cursor past the bits, and the value is
    the number [bs] denotes reduced modulo [2^32]. *)
Theorem getUInt64_returns_low_32_bits (st : BinParser) (bs : list bool) :
  0 <= posByte st -> 0 <= posBit st < 8 ->
  buffer_ok st -> bufLen st < 2 ^ 32 ->
  (1 <= length bs <= 64)%nat ->
  bits_at (buf st) (bit_offset st) bs ->
  getUInt64 st (Z.of_nat (length bs))
  = Def (Ok (msb_value bs mod 2 ^ 32)
            (at_offset st (bit_offset st + Z.of_nat (length bs)))).
Proof. exact (getUInt64_value st bs). Qed.

(** Forty bits [FF 00 00 00 01]: the number is [255 * 2^32 + 1], the read
    returns 1. *)
Lemma getUInt64_returns_low_32_bits_witness :
  getUInt64 (mkBinParser [255; 0; 0; 0; 1] 5 0 0) 40
  = Def (Ok 1 (mkBinParser [255; 0; 0; 0; 1] 5 5 0)).
Proof.
  apply (getUInt64_returns_low_32_bits (mkBinParser [255; 0; 0; 0; 1] 5 0 0)
           (repeat true 8 ++ repeat false 31 ++ [true])
           ltac:(simpl; lia) ltac:(simpl; lia) eq_refl ltac:(simpl; lia)
           ltac:(simpl; lia) ltac:(vm_compute; repeat split)).
Defined.



(** X5. [getBool] on a cursor inside the buffer returns the bit at the
    cursor, most significant bit of the byte first, and moves the cursor
    one bit on. *)
Theorem getBool_reads_bit (st : BinParser) (c : bool) :
  0 <= posByte st -> 0 <= posBit st < 8 ->
  buffer_ok st -> bufLen st < 2 ^ 64 ->
  buffer_bit (buf st) (bit_offset st) = Some c ->
  getBool st = Def (Ok c (at_offset st (bit_offset st + 1))).
Proof.
  intros Hp Hb Hbuf Hsmall Hbit. unfold buffer_ok in Hbuf.
  destruct (buffer_bit_Some _ _ _ Hbit) as (Hk & Hin & Hat).
  unfold bit_offset in *.
  replace ((8 * posByte st + posBit st) / 8) with (posByte st) in * by lia.
  replace ((8 * posByte st + posBit st) mod 8) with (posBit st) in * by lia.
  unfold getBool.
  rewrite hasRest_remaining by (pow_literals; lia). cbn [negb].
  rewrite Hat. cbn [bind].
  rewrite advance_bits by (pow_literals; lia).
  destruct c; reflexivity.
Qed.

(** Bit 2 of [B0 = 10110000] is 1. *)
Lemma getBool_reads_bit_witness :
  getBool (mkBinParser [176] 1 0 2) = Def (Ok true (mkBinParser [176] 1 0 3)).
Proof.
  apply (getBool_reads_bit (mkBinParser [176] 1 0 2) true
           ltac:(simpl; lia) ltac:(simpl; lia) eq_refl ltac:(simpl; lia) eq_refl).
Defined.

(** X6. A fixed-width read of one bit or more that would end after the
    end of the buffer fails with status 1 and leaves the reader as it was,
    for the four fixed-width readers, as long as the capacity check does
    not wrap. *)
Theorem read_beyond_end_fails (st : BinParser) (bits : Z) :
  cursor_inv st -> 1 <= bits ->
  posBit st + bits < 2 ^ 32 -> no_wrap st 0 bits ->
  8 * bufLen st < bit_offset st + bits ->
  getUInt32 st bits = Def (Err 1 st) /\
  getUInt64 st bits = Def (Err 1 st) /\
  getInt32 st bits = Def (Err 1 st) /\
  getInt64 st bits = Def (Err 1 st).
Proof.
  intros Hinv Hbits Hsum Hfit Hover. unfold bit_offset in Hover.
  pose proof (hasRest_exact_false st 0 bits Hinv ltac:(lia) ltac:(lia) Hsum Hfit
                ltac:(lia)) as Hrest.
  assert (H32 : getUInt32 st bits = Def (Err 1 st)).
  { unfold getUInt32. destruct (Z.eqb_spec bits 0); [lia |].
    rewrite Hrest. reflexivity. }
  assert (H64 : getUInt64 st bits = Def (Err 1 st)) by exact H32.
  repeat split; try assumption.
  - unfold getInt32. rewrite H32. reflexivity.
  - unfold getInt64. rewrite H64. reflexivity.
Qed.

(** Eight bits from bit 1 of a one-byte buffer. *)
Lemma read_beyond_end_fails_witness :
  getUInt32 (mkBinParser [180] 1 0 1) 8 = Def (Err 1 (mkBinParser [180] 1 0 1)) /\
  getUInt64 (mkBinParser [180] 1 0 1) 8 = Def (Err 1 (mkBinParser [180] 1 0 1)) /\
  getInt32 (mkBinParser [180] 1 0 1) 8 = Def (Err 1 (mkBinParser [180] 1 0 1)) /\
  getInt64 (mkBinParser [180] 1 0 1) 8 = Def (Err 1 (mkBinParser [180] 1 0 1)).
Proof.
  apply (read_beyond_end_fails (mkBinParser [180] 1 0 1) 8).
  - unfold cursor_inv. simpl. lia.
  - lia.
  - simpl. lia.
  - unfold no_wrap. simpl. vm_compute. reflexivity.
  - unfold bit_offset. simpl. lia.
Defined.

(** X26. [getBool] is the unsigned read of one bit: below byte [2^32],
    from every state, it returns [true] exactly when [getUInt32] of width 1
    returns a value other than 0, with the same status and the same final
    state. *)
Theorem getBool_is_one_bit_read (st : BinParser) :
  0 <= posByte st < 2 ^ 32 ->
  getBool st =
  (r <- getUInt32 st 1 ;;
   match r with
   | Ok u st' => Def (Ok (negb (u =? 0)) st')
   | Err c st' => Def (Err c st')
   end).
Proof.
  intros Hp. unfold getBool, getUInt32. change (1 =? 0) with false. cbv iota.
  change (Z.to_nat 1) with 1%nat.
  destruct (hasRest (posByte st) (posBit st) 0 1 (bufLen st)); cbn [negb bind];
    [| reflexivity].
  cbn [read_bits]. rewrite wrap32_small by exact Hp.
  destruct (bit_at (buf st) (posByte st) (posBit st)) as [c | u |] eqn:E;
    cbn [bind]; reflexivity.
Qed.

Lemma getBool_is_one_bit_read_witness :
  getBool (mkBinParser [176] 1 0 2) =
  (r <- getUInt32 (mkBinParser [176] 1 0 2) 1 ;;
   match r with
   | Ok u st' => Def (Ok (negb (u =? 0)) st')
   | Err c st' => Def (Err c st')
   end).
Proof.
  apply (getBool_is_one_bit_read (mkBinParser [176] 1 0 2)). simpl. lia.
Defined.

(** ** The byte-run read on the bytes of the buffer *)

Lemma skipn_nth_cons (b : list Z) (n : nat) (x : Z) :
  nth_error b n = Some x -> skipn n b = x :: skipn (S n) b.
Proof.
  revert n. induction b as [| y b IH]; intros [| n] H; simpl in *;
    try discriminate.
  - injection H as ->. reflexivity.
  - apply IH in H. rewrite H. reflexivity.
Qed.

Lemma load_nth (b : list Z) (i x : Z) :
  load b i = Def x -> nth_error b (Z.to_nat i) = Some x.
Proof.
  unfold load. destruct (i <? 0); [discriminate |].
  destruct (nth_error b (Z.to_nat i)); [| discriminate].
  intros H. injection H as ->. reflexivity.
Qed.

(** The copy loop returns the [n] bytes from index [pByte] on. *)
Lemma copy_bytes_firstn (n : nat) (b : list Z) (pByte : Z) :
  0 <= pByte -> pByte + Z.of_nat n <= Z.of_nat (length b) ->
  Z.of_nat (length b) < 2 ^ 32 ->
  copy_bytes n b pByte = Def (firstn n (skipn (Z.to_nat pByte) b)).
Proof.
  revert pByte. induction n as [| n IH]; intros pByte Hp Hn Hsmall.
  - reflexivity.
  - cbn [copy_bytes].
    destruct (load_in_range b pByte ltac:(lia)) as (x & Hx). rewrite Hx.
    cbn [bind]. apply load_nth in Hx.
    rewrite wrap32_small by lia.
    rewrite IH by lia. cbn [bind].
    rewrite (skipn_nth_cons _ _ _ Hx).
    replace (Z.to_nat (pByte + 1)) with (S (Z.to_nat pByte)) by lia.
    reflexivity.
Qed.

Lemma advance_bytes (st : BinParser) (n : Z) :
  0 <= posByte st -> posBit st = 0 -> 0 <= n -> posByte st + n < 2 ^ 64 ->
  BIN_PARSER_ADVANCE_POS st n 0 = at_offset st (bit_offset st + 8 * n).
Proof.
  intros Hp Hal Hn Hfit. unfold BIN_PARSER_ADVANCE_POS, at_offset, bit_offset.
  rewrite Hal. change (wrap32 (0 + 0)) with 0.
  change (Z.shiftr 0 3) with 0. change (Z.land 0 7) with 0.
  rewrite Z.add_0_r, (wrap64_small (posByte st + n)) by lia.
  rewrite wrap64_small by lia.
  f_equal; lia.
Qed.

(** X7. On a byte-aligned cursor with [0 <= posByte <= bufLen], in a
    buffer of less than [2^32] bytes whose [bufLen] is its length, and for
    [n >= 0] with [posByte + n < 2^32] (the capacity check then computes
    without wrap-around): [BinParser_getBytes] of [n] bytes returns the
    [n] bytes that start at the cursor and moves the cursor [n] bytes on
    when [n] bytes are left (also for [n = 0], and up to the very end of
    the buffer); it fails with status 1, leaving the reader as it was,
    when fewer are left. *)
Theorem getBytes_copies (st : BinParser) (n : Z) :
  0 <= posByte st <= bufLen st -> posBit st = 0 ->
  buffer_ok st -> bufLen st < 2 ^ 32 ->
  0 <= n -> posByte st + n < 2 ^ 32 ->
  BinParser_getBytes st n =
  if posByte st + n <=? bufLen st
  then Def (Ok (firstn (Z.to_nat n) (skipn (Z.to_nat (posByte st)) (buf st)))
               (at_offset st (bit_offset st + 8 * n)))
  else Def (Err 1 st).
Proof.
  intros Hp Hal Hbuf Hsmall Hn Hfit.
  assert (Hinv : cursor_inv st) by (unfold cursor_inv; lia).
  assert (Hw : no_wrap st n 0).
  { unfold no_wrap. rewrite Hal. change (wrap32 (0 + 0) / 8) with 0. lia. }
  unfold BinParser_getBytes, isByteAligned. rewrite Hal. cbn [Z.eqb negb].
  rewrite <- Hal at 1.
  destruct (Z.leb_spec (posByte st + n) (bufLen st)) as [Hle | Hgt].
  - rewrite (hasRest_exact_true st n 0 Hinv Hn ltac:(lia) ltac:(pow_literals; lia) Hw
               ltac:(lia)).
    cbn [negb]. unfold buffer_ok in Hbuf.
    rewrite wrap32_small by lia.
    rewrite copy_bytes_firstn by lia. cbn [bind].
    rewrite advance_bytes by (pow_literals; lia). reflexivity.
  - rewrite (hasRest_exact_false st n 0 Hinv Hn ltac:(lia) ltac:(pow_literals; lia) Hw
               ltac:(lia)).
    reflexivity.
Qed.

(** Two bytes from byte 1 of a four-byte buffer. *)
Lemma getBytes_copies_witness :
  BinParser_getBytes (mkBinParser [10; 20; 30; 40] 4 1 0) 2
  = Def (Ok [20; 30] (mkBinParser [10; 20; 30; 40] 4 3 0)).
Proof.
  apply (getBytes_copies (mkBinParser [10; 20; 30; 40] 4 1 0) 2
           ltac:(simpl; lia) eq_refl eq_refl ltac:(simpl; lia)
           ltac:(lia) ltac:(simpl; lia)).
Defined.

(** ** Alignment to the next byte *)

Lemma state_eta (st : BinParser) :
  {| buf := buf st; bufLen := bufLen st; posByte := posByte st; posBit := posBit st |}
  = st.
Proof. destruct st. reflexivity. Qed.

(** X8. From a state satisfying the cursor invariant [alignByte] always
    succeeds and leaves the cursor at the first byte boundary at or after
    it: bit offset [8 * ceil (offset / 8)], which is the end of the buffer
    when the cursor was inside its last byte. *)
Theorem alignByte_rounds_up (st : BinParser) :
  cursor_inv st -> bufLen st < 2 ^ 64 ->
  alignByte st = Def (Ok tt (at_offset st (8 * ((bit_offset st + 7) / 8)))).
Proof.
  unfold cursor_inv, alignByte, isInBuf, at_offset, bit_offset.
  intros (Hp & Hb & Hin) Hsmall.
  destruct (Z.ltb_spec (posByte st) (bufLen st)) as [Hlt | Hge]; cbn [negb].
  - destruct (Z.eqb_spec (posBit st) 0) as [Hz | Hnz]; cbn [negb].
    + rewrite Hz. do 2 f_equal. rewrite <- (state_eta st) at 1.
      f_equal; lia.
    + do 2 f_equal. rewrite wrap64_small by (pow_literals; lia). f_equal; lia.
  - do 2 f_equal. rewrite <- (state_eta st) at 1. f_equal; lia.
Qed.

(** From bit 3 of byte 1 to byte 2. *)
Lemma alignByte_rounds_up_witness :
  alignByte (mkBinParser [1; 2; 3] 3 1 3) = Def (Ok tt (mkBinParser [1; 2; 3] 3 2 0)).
Proof.
  apply (alignByte_rounds_up (mkBinParser [1; 2; 3] 3 1 3)).
  - unfold cursor_inv. simpl. lia.
  - simpl. lia.
Defined.

(** X9. [alignByte] is idempotent, from every state: a second call
    returns success with the state the first call left. *)
Theorem alignByte_idempotent (st st' : BinParser) :
  alignByte st = Def (Ok tt st') -> alignByte st' = Def (Ok tt st').
Proof.
  unfold alignByte, isInBuf.
  destruct (Z.ltb_spec (posByte st) (bufLen st)) as [Hlt | Hge]; cbn [negb].
  - destruct (Z.eqb_spec (posBit st) 0) as [Hz | Hnz]; cbn [negb].
    + intros H. injection H as <-.
      destruct (Z.ltb_spec (posByte st) (bufLen st)); [| lia]. cbn [negb].
      rewrite Hz. reflexivity.
    + intros H. injection H as <-. cbn [posByte posBit bufLen buf].
      destruct (wrap64 (posByte st + 1) <? bufLen st); reflexivity.
  - intros H. injection H as <-.
    destruct (Z.ltb_spec (posByte st) (bufLen st)); [lia | reflexivity].
Qed.

Lemma alignByte_idempotent_witness :
  alignByte (mkBinParser [1; 2; 3] 3 2 0) = Def (Ok tt (mkBinParser [1; 2; 3] 3 2 0)).
Proof.
  apply (alignByte_idempotent (mkBinParser [1; 2; 3] 3 1 3)). reflexivity.
Defined.

(** ** Alignment to a multiple of [n] bytes, continued *)

Lemma next_multiple_mod (p n : Z) : 0 < n -> (p - p mod n + n) mod n = 0.
Proof.
  intros Hn. replace (p - p mod n + n) with ((p / n + 1) * n).
  - apply Z.mod_mul. lia.
  - pose proof (Z.div_mod p n ltac:(lia)). nia.
Qed.

Lemma alignBytes_aligned_noop (st : BinParser) (n : Z) :
  isAligned st n = Def true -> alignBytes st n = Def (Ok tt st).
Proof.
  unfold isAligned, alignBytes. destruct (n =? 0); [discriminate |].
  intros H. injection H as H. rewrite H.
  destruct (negb _); reflexivity.
Qed.

(** X10. [alignBytes(n)] for [n >= 1], when the next multiple of [n]
    fits 32 bits.  Inside the buffer: a cursor on a multiple of [n] with
    bit offset 0 is left as it is; otherwise the cursor moves to the next
    multiple of [n], bit 0, if that byte is inside the buffer, and the call
    fails with status 1 when it is not (also when the multiple is exactly
    the end of the buffer).  At or past the end the call succeeds and
    changes nothing. *)
Theorem alignBytes_next_multiple (st : BinParser) (n : Z) :
  1 <= n < 2 ^ 32 -> 0 <= posByte st ->
  posByte st - posByte st mod n + n < 2 ^ 32 ->
  alignBytes st n =
  if posByte st <? bufLen st then
    if (posByte st mod n =? 0) && (posBit st =? 0) then Def (Ok tt st)
    else if posByte st - posByte st mod n + n <? bufLen st
         then Def (Ok tt {| buf := buf st; bufLen := bufLen st;
                            posByte := posByte st - posByte st mod n + n;
                            posBit := 0 |})
         else Def (Err 1 st)
  else Def (Ok tt st).
Proof. exact (alignBytes_within_32_bits st n). Qed.

(** In eight bytes, from byte 5: to byte 6 for [n = 3]; a failure for
    [n = 4], whose next multiple is the end of the buffer. *)
Lemma alignBytes_next_multiple_witness :
  alignBytes (mkBinParser [0; 1; 2; 3; 4; 5; 6; 7] 8 5 0) 3
  = Def (Ok tt (mkBinParser [0; 1; 2; 3; 4; 5; 6; 7] 8 6 0)) /\
  alignBytes (mkBinParser [0; 1; 2; 3; 4; 5; 6; 7] 8 5 0) 4
  = Def (Err 1 (mkBinParser [0; 1; 2; 3; 4; 5; 6; 7] 8 5 0)).
Proof.
  split.
  - apply (alignBytes_next_multiple (mkBinParser [0; 1; 2; 3; 4; 5; 6; 7] 8 5 0) 3
             ltac:(lia) ltac:(simpl; lia) ltac:(simpl; vm_compute; reflexivity)).
  - apply (alignBytes_next_multiple (mkBinParser [0; 1; 2; 3; 4; 5; 6; 7] 8 5 0) 4
             ltac:(lia) ltac:(simpl; lia) ltac:(simpl; vm_compute; reflexivity)).
Defined.

(** X11. For [1 <= n < 2^32], from a cursor inside the buffer
    ([0 <= posByte < bufLen]) and when the next multiple of [n],
    [posByte - posByte mod n + n], is below [2^32]: a successful
    [alignBytes(n)] leaves a cursor that [isAligned(n)] accepts, inside
    the buffer, at most [n] bytes after the byte it started in and never
    before it; a second [alignBytes(n)] then changes nothing. *)
Theorem alignBytes_result_aligned (st st' : BinParser) (n : Z) :
  1 <= n < 2 ^ 32 -> 0 <= posByte st < bufLen st ->
  posByte st - posByte st mod n + n < 2 ^ 32 ->
  alignBytes st n = Def (Ok tt st') ->
  isAligned st' n = Def true /\
  posByte st <= posByte st' <= posByte st + n /\
  posByte st' < bufLen st' /\
  alignBytes st' n = Def (Ok tt st').
Proof.
  intros Hn Hp Hfit H.
  assert (Hal : isAligned st' n = Def true /\
                posByte st <= posByte st' <= posByte st + n /\
                posByte st' < bufLen st').
  { rewrite alignBytes_within_32_bits in H by lia.
    pose proof (Z.mod_pos_bound (posByte st) n ltac:(lia)) as Hrem.
    destruct (Z.ltb_spec (posByte st) (bufLen st)); [| lia].
    destruct ((posByte st mod n =? 0) && (posBit st =? 0)) eqn:E.
    - injection H as <-. unfold isAligned.
      destruct (Z.eqb_spec n 0); [lia |].
      rewrite wrap32_small, E by lia. repeat split; lia.
    - destruct (Z.ltb_spec (posByte st - posByte st mod n + n) (bufLen st));
        [| discriminate].
      injection H as <-. unfold isAligned. cbn [posByte posBit bufLen].
      destruct (Z.eqb_spec n 0); [lia |].
      rewrite next_multiple_mod by lia. repeat split; lia. }
  destruct Hal as (Hal & Hpos & Hin). repeat split; try assumption; try lia.
  apply alignBytes_aligned_noop. exact Hal.
Qed.

Lemma alignBytes_result_aligned_witness :
  isAligned (mkBinParser [0; 1; 2; 3; 4; 5; 6; 7] 8 6 0) 3 = Def true /\
  5 <= 6 <= 5 + 3 /\ 6 < 8 /\
  alignBytes (mkBinParser [0; 1; 2; 3; 4; 5; 6; 7] 8 6 0) 3
  = Def (Ok tt (mkBinParser [0; 1; 2; 3; 4; 5; 6; 7] 8 6 0)).
Proof.
  apply (alignBytes_result_aligned (mkBinParser [0; 1; 2; 3; 4; 5; 6; 7] 8 5 2)
           (mkBinParser [0; 1; 2; 3; 4; 5; 6; 7] 8 6 0) 3
           ltac:(lia) ltac:(simpl; lia) ltac:(simpl; vm_compute; reflexivity)
           eq_refl).
Defined.

(** X12. From a state that satisfies the cursor invariant, with
    [bufLen + 1 < 2^32]: [alignBytes(1)] and [alignByte] agree except
    inside the last byte of the buffer; from a bit offset other than 0 in
    the last byte [alignByte] moves the cursor to the end of the buffer,
    and [alignBytes(1)] fails and leaves it where it was. *)
Theorem alignBytes_1_vs_alignByte (st : BinParser) :
  cursor_inv st -> bufLen st + 1 < 2 ^ 32 ->
  (posByte st + 1 = bufLen st /\ posBit st <> 0 ->
   alignByte st = Def (Ok tt (at_offset st (8 * bufLen st))) /\
   alignBytes st 1 = Def (Err 1 st)) /\
  (~ (posByte st + 1 = bufLen st /\ posBit st <> 0) ->
   alignBytes st 1 = alignByte st).
Proof.
  intros Hinv Hsmall. pose proof Hinv as (Hp & Hb & Hin).
  assert (Hmod : posByte st mod 1 = 0) by apply Z.mod_1_r.
  assert (E : alignBytes st 1 = _)
    by (apply (alignBytes_within_32_bits st 1); pow_literals; lia).
  rewrite Hmod in E. cbn [Z.eqb andb] in E. rewrite Z.sub_0_r in E.
  split.
  - intros (Hlast & Hnz). split.
    + rewrite alignByte_rounds_up by (assumption || (pow_literals; lia)).
      do 3 f_equal. unfold bit_offset. lia.
    + rewrite E.
      destruct (Z.ltb_spec (posByte st) (bufLen st)); [| lia].
      destruct (Z.eqb_spec (posBit st) 0); [contradiction |].
      destruct (Z.ltb_spec (posByte st + 1) (bufLen st)); [lia | reflexivity].
  - intros Hnot. rewrite E. unfold alignByte, isInBuf.
    destruct (Z.ltb_spec (posByte st) (bufLen st)); cbn [negb]; [| reflexivity].
    destruct (Z.eqb_spec (posBit st) 0); cbn [negb]; [reflexivity |].
    destruct (Z.ltb_spec (posByte st + 1) (bufLen st)); [| lia].
    rewrite wrap64_small by (pow_literals; lia). reflexivity.
Qed.

(** Bit 3 of the last of three bytes. *)
Lemma alignBytes_1_vs_alignByte_witness :
  alignByte (mkBinParser [1; 2; 3] 3 2 3) = Def (Ok tt (mkBinParser [1; 2; 3] 3 3 0)) /\
  alignBytes (mkBinParser [1; 2; 3] 3 2 3) 1 = Def (Err 1 (mkBinParser [1; 2; 3] 3 2 3)).
Proof.
  apply (proj1 (alignBytes_1_vs_alignByte (mkBinParser [1; 2; 3] 3 2 3)
                  ltac:(unfold cursor_inv; simpl; lia) ltac:(simpl; lia))).
  simpl. lia.
Defined.

(** ** Positioning *)

(** X13. A seek to a byte inside the buffer succeeds whatever the bit
    offset, keeps the buffer, and the position [BinParser_getPos] then
    reports is the one asked for; a seek to a byte at or after the length
    fails with status 1 and leaves the reader as it was. *)
Theorem seek_then_getPos (st : BinParser) (pByte pBit : Z) :
  uint pByte ->
  (pByte < bufLen st ->
   exists st',
     seek_ st pByte pBit = Def (Ok tt st') /\
     BinParser_getPos st' = Def (Ok (pByte, pBit) st') /\
     buf st' = buf st /\ bufLen st' = bufLen st) /\
  (bufLen st <= pByte -> seek_ st pByte pBit = Def (Err 1 st)).
Proof.
  intros Hu. unfold seek_, isInBuf. split.
  - intros Hlt. destruct (Z.ltb_spec pByte (bufLen st)); [| lia]. cbn [negb].
    eexists. split; [reflexivity |]. unfold BinParser_getPos.
    cbn [posByte posBit buf bufLen]. rewrite wrap32_small by exact Hu.
    repeat split.
  - intros Hge. destruct (Z.ltb_spec pByte (bufLen st)); [lia | reflexivity].
Qed.

Lemma seek_then_getPos_witness :
  exists st',
    seek_ (mkBinParser [1; 2; 3] 3 0 0) 2 9 = Def (Ok tt st') /\
    BinParser_getPos st' = Def (Ok (2, 9) st') /\
    buf st' = [1; 2; 3] /\ bufLen st' = 3.
Proof.
  apply (proj1 (seek_then_getPos (mkBinParser [1; 2; 3] 3 0 0) 2 9
                  ltac:(unfold uint; lia))).
  simpl. lia.
Defined.

Lemma skip_value (st : BinParser) (bytes bits : Z) :
  cursor_inv st -> 0 <= bytes -> 0 <= bits ->
  posBit st + bits < 2 ^ 32 -> no_wrap st bytes bits ->
  BinParser_skip st bytes bits =
  if (bit_offset st + 8 * bytes + bits) / 8 <? bufLen st
  then Def (Ok tt (at_offset st (bit_offset st + 8 * bytes + bits)))
  else Def (Err 1 st).
Proof.
  unfold cursor_inv, no_wrap, BinParser_skip, seek_, isInBuf, bit_offset, at_offset.
  intros (Hp & Hb & _) Hbytes Hbits Hsum.
  rewrite wrap32_wrap64, shiftr3, land7.
  rewrite (wrap32_small (posBit st + bits)) by lia. intros Hfit.
  rewrite wrap32_small by lia.
  replace ((8 * posByte st + posBit st + 8 * bytes + bits) / 8)
    with (posByte st + bytes + (posBit st + bits) / 8) by lia.
  replace ((8 * posByte st + posBit st + 8 * bytes + bits) mod 8)
    with ((posBit st + bits) mod 8) by lia.
  destruct (posByte st + bytes + (posBit st + bits) / 8 <? bufLen st); reflexivity.
Qed.

(** X14. [BinParser_skip] moves the cursor on by [8 * bytes + bits] bits
    when the byte it arrives in is inside the buffer, and fails with
    status 1, leaving the reader as it was, when that byte is at or after
    the length (as long as the 32-bit position arithmetic does not
    wrap). *)
Theorem skip_moves_by_offset (st : BinParser) (bytes bits : Z) :
  cursor_inv st -> 0 <= bytes -> 0 <= bits ->
  posBit st + bits < 2 ^ 32 -> no_wrap st bytes bits ->
  BinParser_skip st bytes bits =
  if (bit_offset st + 8 * bytes + bits) / 8 <? bufLen st
  then Def (Ok tt (at_offset st (bit_offset st + 8 * bytes + bits)))
  else Def (Err 1 st).
Proof. exact (skip_value st bytes bits). Qed.

(** One byte and six bits from byte 0, bit 5: to byte 2, bit 3. *)
Lemma skip_moves_by_offset_witness :
  BinParser_skip (mkBinParser [1; 2; 3] 3 0 5) 1 6
  = Def (Ok tt (mkBinParser [1; 2; 3] 3 2 3)).
Proof.
  apply (skip_moves_by_offset (mkBinParser [1; 2; 3] 3 0 5) 1 6).
  - unfold cursor_inv. simpl. lia.
  - lia.
  - lia.
  - simpl. lia.
  - unfold no_wrap. simpl. vm_compute. reflexivity.
Defined.

(** X15. From a state that satisfies the cursor invariant, in a buffer
    of less than [2^32] bytes whose [bufLen] is its length: the end of the
    buffer can be read to and cannot be skipped to.  With [r] bits left,
    [1 <= r <= 32], [getUInt32] of [r] bits succeeds and leaves the cursor
    at the end, and a skip of the same [r] bits fails and leaves the
    cursor where it was. *)
Theorem skip_to_end_fails (st : BinParser) (r : Z) :
  cursor_inv st -> buffer_ok st -> bufLen st < 2 ^ 32 ->
  1 <= r <= 32 -> bit_offset st + r = 8 * bufLen st ->
  (exists v, getUInt32 st r = Def (Ok v (at_offset st (8 * bufLen st)))) /\
  BinParser_skip st 0 r = Def (Err 1 st).
Proof.
  intros Hinv Hbuf Hsmall Hr Hend. pose proof Hinv as (Hp & Hb & Hin).
  unfold bit_offset in Hend. split.
  - unfold getUInt32. destruct (Z.eqb_spec r 0); [lia |].
    rewrite hasRest_remaining by (pow_literals; lia). cbn [negb].
    unfold buffer_ok in Hbuf.
    destruct (read_bits_defined (Z.to_nat r) (buf st) (wrap32 (posByte st))
                (posBit st) 0 (proj1 (wrap32_range _)) Hb
                ltac:(rewrite wrap32_small by lia; lia)) as (v & ->).
    cbn [bind]. exists v.
    rewrite advance_bits by (pow_literals; lia).
    unfold bit_offset. rewrite Hend. reflexivity.
  - rewrite skip_value; try assumption; try lia.
    + unfold bit_offset.
      replace (8 * posByte st + posBit st + 8 * 0 + r) with (8 * bufLen st) by lia.
      destruct (Z.ltb_spec (8 * bufLen st / 8) (bufLen st)); [lia | reflexivity].
    + unfold no_wrap. rewrite wrap32_small by (pow_literals; lia). lia.
Qed.

Lemma skip_to_end_fails_witness :
  (exists v, getUInt32 (mkBinParser [180] 1 0 3) 5
             = Def (Ok v (at_offset (mkBinParser [180] 1 0 3) (8 * 1)))) /\
  BinParser_skip (mkBinParser [180] 1 0 3) 0 5 = Def (Err 1 (mkBinParser [180] 1 0 3)).
Proof.
  apply (skip_to_end_fails (mkBinParser [180] 1 0 3) 5).
  - unfold cursor_inv. simpl. lia.
  - reflexivity.
  - simpl. lia.
  - lia.
  - reflexivity.
Defined.

(** ** Signed fixed-width reads *)

Lemma mask64 (w : Z) :
  1 <= w <= 63 -> wrap64 (Z.shiftl 1 w - 1) = 2 ^ w - 1.
Proof.
  intros Hw. rewrite Z.shiftl_mul_pow2, Z.mul_1_l by lia.
  pose proof (pow2_le w 64 ltac:(lia)). pose proof (pow2_pos w ltac:(lia)).
  apply wrap64_small. lia.
Qed.

Lemma not64_mask (w : Z) :
  1 <= w <= 63 -> not64 (2 ^ w - 1) = (2 ^ (64 - w) - 1) * 2 ^ w.
Proof.
  intros Hw. unfold not64.
  pose proof (Z.add_lnot_diag (2 ^ w - 1)) as Hn.
  replace (Z.lnot (2 ^ w - 1)) with (- 2 ^ w) by lia.
  assert (E : 2 ^ 64 = 2 ^ (64 - w) * 2 ^ w).
  { rewrite <- Z.pow_add_r by lia. f_equal. lia. }
  pose proof (pow2_pos w ltac:(lia)). pose proof (pow2_pos (64 - w) ltac:(lia)).
  unfold wrap64. symmetry. apply Z.mod_unique_pos with (q := -1); nia.
Qed.

Lemma castInt64_value (u w : Z) :
  1 <= w <= 63 -> 0 <= u < 2 ^ w ->
  castInt64 u w = Def (if u <? 2 ^ (w - 1) then u else u - 2 ^ w).
Proof.
  intros Hw Hu. unfold castInt64.
  destruct (Z.leb_spec 64 w); [lia |].
  rewrite mask64 by exact Hw.
  rewrite (wrap32_small (w - 1)) by (pow_literals; lia).
  destruct (Z.leb_spec 64 (w - 1)); [lia |].
  rewrite !land_mask, (Z.mod_small u) by lia.
  rewrite land1, Z.shiftr_div_pow2 by lia.
  assert (E : 2 ^ w = 2 * 2 ^ (w - 1)).
  { rewrite <- pow2_succ by lia. f_equal. lia. }
  pose proof (pow2_pos (w - 1) ltac:(lia)) as Hpos.
  pose proof (pow2_le w 63 ltac:(lia)) as Hle.
  assert (E64 : 2 ^ 64 = 2 ^ (64 - w) * 2 ^ w).
  { rewrite <- Z.pow_add_r by lia. f_equal. lia. }
  pose proof (pow2_pos (64 - w) ltac:(lia)) as Hpos'.
  pose proof (pow2_le 1 (64 - w) ltac:(lia)) as Hge2. change (2 ^ 1) with 2 in Hge2.
  destruct (Z.ltb_spec u (2 ^ (w - 1))) as [Hlo | Hhi].
  - rewrite Z.div_small by lia. simpl. f_equal. unfold to_int64.
    destruct (Z.ltb_spec u (2 ^ 63)); [reflexivity | lia].
  - replace (u / 2 ^ (w - 1)) with 1
      by (apply Z.div_unique with (r := u - 2 ^ (w - 1)); lia).
    simpl. f_equal. rewrite not64_mask, lor_low_high by lia.
    unfold to_int64.
    destruct (Z.ltb_spec ((2 ^ (64 - w) - 1) * 2 ^ w + u) (2 ^ 63)) as [Hlt | Hge].
    + pose proof (pow2_le (w - 1) 62 ltac:(lia)).
      change (2 ^ 63) with (2 * 2 ^ 62) in *. change (2 ^ 64) with (4 * 2 ^ 62) in *.
      nia.
    + nia.
Qed.

Lemma getUInt32_width (st st' : BinParser) (w u : Z) :
  1 <= w <= 32 -> getUInt32 st w = Def (Ok u st') -> 0 <= u < 2 ^ w.
Proof.
  intros Hw. unfold getUInt32. destruct (Z.eqb_spec w 0); [lia |].
  destruct (negb _); [discriminate |].
  destruct (read_bits _ _ _ _ _) as [t | |] eqn:E; cbn [bind]; try discriminate.
  intros H. injection H as <- _.
  assert (Ht : 0 <= t < 2 ^ (0 + Z.of_nat (Z.to_nat w))).
  { eapply read_bits_width; [| | | exact E]; simpl; lia. }
  rewrite Z2Nat.id, Z.add_0_l in Ht by lia. exact Ht.
Qed.

(** X16. For a width from 1 to 32 the signed 64-bit read returns what
    the signed 32-bit read returns, value, status and final state alike,
    from every state. *)
Theorem getInt64_agrees_with_getInt32 (st : BinParser) (w : Z) :
  1 <= w <= 32 -> getInt64 st w = getInt32 st w.
Proof.
  intros Hw. unfold getInt64, getInt32.
  change (getUInt64 st w) with (getUInt32 st w).
  destruct (getUInt32 st w) as [[u s | c s] | e |] eqn:E; cbn [bind];
    try reflexivity.
  pose proof (getUInt32_width _ _ _ _ Hw E) as Hu.
  rewrite castInt64_value, castInt32_value by lia. reflexivity.
Qed.

Lemma getInt64_agrees_with_getInt32_witness :
  getInt64 (mkBinParser [255; 0] 2 0 0) 3 = getInt32 (mkBinParser [255; 0] 2 0 0) 3.
Proof.
  apply (getInt64_agrees_with_getInt32 (mkBinParser [255; 0] 2 0 0) 3). lia.
Defined.

Lemma msb_value_head (c : bool) (cs : list bool) :
  (msb_value (c :: cs) <? 2 ^ Z.of_nat (length cs)) = negb c.
Proof.
  cbn [msb_value]. pose proof (msb_value_range cs) as Hr.
  destruct c; cbn [Z.b2z negb].
  - destruct (Z.ltb_spec (1 * 2 ^ Z.of_nat (length cs) + msb_value cs)
                (2 ^ Z.of_nat (length cs))); [lia | reflexivity].
  - destruct (Z.ltb_spec (0 * 2 ^ Z.of_nat (length cs) + msb_value cs)
                (2 ^ Z.of_nat (length cs))); [reflexivity | lia].
Qed.

(** X17. In a buffer of less than [2^32] bytes whose [bufLen] is its
    length, from a cursor with [posByte >= 0] and a bit offset in
    [[0, 8)]: [getInt32] on the bits [bs] at the cursor, one to 32 of
    them, succeeds, returns the number [bs] denotes in two's complement
    (the first bit is the sign) and leaves the cursor just after the
    bits. *)
Theorem getInt32_reads_twos_complement (st : BinParser) (bs : list bool) :
  0 <= posByte st -> 0 <= posBit st < 8 ->
  buffer_ok st -> bufLen st < 2 ^ 32 ->
  (1 <= length bs <= 32)%nat ->
  bits_at (buf st) (bit_offset st) bs ->
  getInt32 st (Z.of_nat (length bs))
  = Def (Ok (twos_value bs) (at_offset st (bit_offset st + Z.of_nat (length bs)))).
Proof.
  intros Hp Hb Hbuf Hsmall Hn Hbits. unfold getInt32.
  change (getUInt32 st (Z.of_nat (length bs)))
    with (getUInt64 st (Z.of_nat (length bs))).
  rewrite getUInt64_exact_upto_32 by assumption. cbn [bind].
  pose proof (msb_value_range bs) as Hr.
  rewrite castInt32_value by lia. cbn [bind]. do 2 f_equal.
  destruct bs as [| c cs]; [simpl in Hn; lia |].
  unfold twos_value. cbn [hd].
  replace (Z.of_nat (length (c :: cs)) - 1) with (Z.of_nat (length cs))
    by (cbn [length]; lia).
  rewrite msb_value_head. destruct c; cbn [negb Z.b2z]; lia.
Qed.

(** The three bits [101] are [-3]. *)
Lemma getInt32_reads_twos_complement_witness :
  getInt32 (mkBinParser [180] 1 0 0) 3 = Def (Ok (-3) (mkBinParser [180] 1 0 3)).
Proof.
  apply (getInt32_reads_twos_complement (mkBinParser [180] 1 0 0) [true; false; true]
           ltac:(simpl; lia) ltac:(simpl; lia) eq_refl ltac:(simpl; lia)
           ltac:(simpl; lia) ltac:(vm_compute; repeat split)).
Defined.

(** X18. The widths at which the signed reads leave defined C: a signed
    read of width 0 shifts by [width - 1 = 2^32 - 1] in [castInt32] or
    [castInt64], whatever the state, although the unsigned read of width 0
    returns 0; and a signed 64-bit read of width 64 whose unsigned read
    succeeds evaluates [1ULL << 64] in [castInt64]. *)
Theorem signed_reads_undefined_widths (st : BinParser) :
  getUInt32 st 0 = Def (Ok 0 st) /\
  getInt32 st 0 = Undef BadShift /\
  getInt64 st 0 = Undef BadShift /\
  (forall u st', getUInt64 st 64 = Def (Ok u st') ->
                 getInt64 st 64 = Undef BadShift).
Proof.
  repeat split.
  intros u st' H. unfold getInt64. rewrite H. reflexivity.
Qed.

Lemma signed_reads_undefined_widths_witness :
  getInt64 (mkBinParser [1; 2; 3; 4; 5; 6; 7; 8] 8 0 0) 64 = Undef BadShift.
Proof.
  apply (proj2 (proj2 (proj2 (signed_reads_undefined_widths
                                (mkBinParser [1; 2; 3; 4; 5; 6; 7; 8] 8 0 0))))
           84281096 (mkBinParser [1; 2; 3; 4; 5; 6; 7; 8] 8 8 0)).
  vm_compute. reflexivity.
Defined.

(** ** Exp-Golomb reads, continued *)

(** Over zeros up to the end of the buffer the prefix loop runs to the
    end. *)
Lemma glm_prefix_runs_out (m fuel : nat) (b : list Z) (len k zeros : Z) :
  len = Z.of_nat (length b) -> len < 2 ^ 32 ->
  0 <= k -> k + Z.of_nat m = 8 * len -> (m < fuel)%nat ->
  (forall j, k <= j < 8 * len -> buffer_bit b j = Some false) ->
  exists zeros',
    glm_prefix fuel b len (k / 8) (k mod 8) zeros = Def (Some (len, 0, zeros')).
Proof.
  intros Hlen Hsmall. revert fuel k zeros.
  induction m as [| m IH]; intros fuel k zeros Hk Hm Hfuel Hzero;
    (destruct fuel as [| fuel]; [lia |]); cbn [glm_prefix].
  - replace k with (8 * len) by lia.
    replace (8 * len / 8) with len by lia.
    replace ((8 * len) mod 8) with 0 by lia.
    destruct (Z.ltb_spec len len); [lia |]. exists zeros. reflexivity.
  - destruct (Z.ltb_spec (k / 8) len); [| lia].
    destruct (Z.leb_spec len (k / 8)); [lia |].
    destruct (buffer_bit_Some _ _ _ (Hzero k ltac:(lia))) as (_ & _ & ->).
    cbn [bind Z.b2z Z.eqb].
    destruct (next_cursor_exact k Hk ltac:(lia)) as (-> & ->).
    apply IH; try lia. intros j Hj. apply Hzero. lia.
Qed.

(** X19. From a state that satisfies the cursor invariant, in a buffer
    of less than [2^32] bytes whose [bufLen] is its length: when every bit
    from the cursor to the end of the buffer is 0 (in particular when the
    cursor is at the end), the unsigned and the signed Exp-Golomb reads
    fail with status 1 and leave the reader as it was. *)
Theorem getGlm_without_terminator_fails (st : BinParser) :
  cursor_inv st -> buffer_ok st -> bufLen st < 2 ^ 32 ->
  (forall j, bit_offset st <= j < 8 * bufLen st ->
             buffer_bit (buf st) j = Some false) ->
  getGlm st = Def (Err 1 st) /\ getSGlm st = Def (Err 1 st).
Proof.
  intros Hinv Hbuf Hsmall Hzero. pose proof Hinv as (Hp & Hb & Hin).
  unfold buffer_ok in Hbuf. unfold bit_offset in Hzero.
  assert (H : getGlm st = Def (Err 1 st)).
  { unfold getGlm, getGlm_from, glm_fuel.
    rewrite wrap32_small by lia.
    set (k := 8 * posByte st + posBit st) in *.
    assert (Hk8 : k / 8 = posByte st) by (subst k; lia).
    assert (Hkm : k mod 8 = posBit st) by (subst k; lia).
    rewrite <- Hk8, <- Hkm.
    destruct (glm_prefix_runs_out (Z.to_nat (8 * bufLen st - k))
                (S (S (Z.to_nat (8 * bufLen st)))) (buf st) (bufLen st) k 0
                Hbuf Hsmall ltac:(subst k; lia) ltac:(subst k; lia)
                ltac:(subst k; lia) Hzero) as (z & ->).
    cbn [bind]. destruct (Z.leb_spec (bufLen st) (bufLen st)); [reflexivity | lia]. }
  split; [exact H |]. unfold getSGlm, getSGlm_from. fold (getGlm st). rewrite H. reflexivity.
Qed.

Lemma getGlm_without_terminator_fails_witness :
  getGlm (mkBinParser [255; 0] 2 1 0) = Def (Err 1 (mkBinParser [255; 0] 2 1 0)) /\
  getSGlm (mkBinParser [255; 0] 2 1 0) = Def (Err 1 (mkBinParser [255; 0] 2 1 0)).
Proof.
  apply (getGlm_without_terminator_fails (mkBinParser [255; 0] 2 1 0)).
  - unfold cursor_inv. simpl. lia.
  - reflexivity.
  - simpl. lia.
  - unfold bit_offset. simpl. intros j Hj.
    assert (Hc : j = 8 \/ j = 9 \/ j = 10 \/ j = 11 \/ j = 12 \/ j = 13 \/
                 j = 14 \/ j = 15) by lia.
    destruct Hc as [-> | [-> | [-> | [-> | [-> | [-> | [-> | ->]]]]]]]; reflexivity.
Defined.

(** The unsigned read on the code of [v], as a lemma on [glm_encode]. *)
Lemma getGlm_on_encode (st : BinParser) (v : Z) :
  0 <= posByte st -> 0 <= posBit st < 8 ->
  buffer_ok st -> bufLen st < 2 ^ 32 ->
  0 <= v <= 2 ^ 31 - 2 ->
  bits_at (buf st) (bit_offset st) (glm_encode v) ->
  getGlm st
  = Def (Ok v (at_offset st (bit_offset st + Z.of_nat (length (glm_encode v))))).
Proof.
  intros Hp Hb Hbuf Hsmall Hv Hbits.
  destruct (glm_encode_shape v Hv) as (Hz & Hs).
  unfold glm_encode, glm_code in *.
  set (z := glm_zeros v) in *. set (s := v + 1 - 2 ^ Z.of_nat z) in *.
  rewrite (getGlm_on_code st z 0 (msb_bits z s) Hp Hb Hbuf Hsmall Hz Hbits);
    [| rewrite msb_bits_length; lia | left; reflexivity].
  rewrite msb_value_bits, Z.mod_small by exact Hs.
  rewrite length_app, repeat_length. simpl length. rewrite msb_bits_length.
  do 2 f_equal; [subst s; lia |]. f_equal. lia.
Qed.

(** X20. In a buffer of less than [2^32] bytes whose [bufLen] is its
    length, from a cursor with [posByte >= 0] and a bit offset in
    [[0, 8)], Exp-Golomb codes are read back to back: when the codes of
    [v1] and [v2], both in [[0, 2^31 - 2]], follow each other at the
    cursor, a first read returns [v1], a second read from the state the
    first one left returns [v2], and the cursor ends just after the second
    code. *)
Theorem getGlm_twice (st : BinParser) (v1 v2 : Z) :
  0 <= posByte st -> 0 <= posBit st < 8 ->
  buffer_ok st -> bufLen st < 2 ^ 32 ->
  0 <= v1 <= 2 ^ 31 - 2 -> 0 <= v2 <= 2 ^ 31 - 2 ->
  bits_at (buf st) (bit_offset st) (glm_encode v1 ++ glm_encode v2) ->
  exists st1,
    getGlm st = Def (Ok v1 st1) /\
    getGlm st1
    = Def (Ok v2 (at_offset st (bit_offset st
                                + Z.of_nat (length (glm_encode v1 ++ glm_encode v2))))).
Proof.
  intros Hp Hb Hbuf Hsmall Hv1 Hv2 Hbits.
  apply bits_at_app in Hbits. destruct Hbits as (H1 & H2).
  set (k := bit_offset st) in *.
  assert (Hk : 0 <= k) by (subst k; unfold bit_offset; lia).
  exists (at_offset st (k + Z.of_nat (length (glm_encode v1)))).
  split.
  - apply getGlm_on_encode; assumption.
  - pose proof (getGlm_on_encode
                  (at_offset st (k + Z.of_nat (length (glm_encode v1)))) v2) as H.
    rewrite at_offset_offset in H.
    rewrite H; try (apply at_offset_cursor; lia); try assumption.
    rewrite length_app, Nat2Z.inj_add, Z.add_assoc. reflexivity.
Qed.

(** [01100100]: the code [011] of 2, then the code [00100] of 3. *)
Lemma getGlm_twice_witness :
  exists st1,
    getGlm (mkBinParser [100] 1 0 0) = Def (Ok 2 st1) /\
    getGlm st1 = Def (Ok 3 (mkBinParser [100] 1 1 0)).
Proof.
  apply (getGlm_twice (mkBinParser [100] 1 0 0) 2 3
           ltac:(simpl; lia) ltac:(simpl; lia) eq_refl ltac:(simpl; lia)
           ltac:(simpl; lia) ltac:(simpl; lia) ltac:(vm_compute; repeat split)).
Defined.

Lemma signed_of_unsigned_of (s : Z) : signed_of (unsigned_of s) = s.
Proof.
  unfold signed_of, unsigned_of.
  destruct (Z.ltb_spec 0 s).
  - replace (2 * s - 1) with (1 + 2 * (s - 1)) by lia.
    rewrite Z.odd_add_mul_2. cbn [Z.odd].
    rewrite Z.shiftr_div_pow2 by lia. change (2 ^ 1) with 2. lia.
  - replace (- (2 * s)) with (0 + 2 * (- s)) by lia.
    rewrite Z.odd_add_mul_2. cbn [Z.odd].
    rewrite Z.shiftr_div_pow2 by lia. change (2 ^ 1) with 2. lia.
Qed.

Lemma getSGlm_value (st st' : BinParser) (u : Z) :
  0 <= u <= 2 ^ 31 - 2 -> getGlm st = Def (Ok u st') ->
  getSGlm st = Def (Ok (signed_of u) st').
Proof.
  intros Hu H. unfold getSGlm, getSGlm_from, signed_of. fold (getGlm st). rewrite H. cbn [bind].
  rewrite odd_land1, negb_involutive, Z.shiftr_div_pow2 by lia.
  change (2 ^ 1) with 2.
  destruct (Z.odd u); do 2 f_equal; unfold to_int32, wrap32; pow_literals.
  - rewrite Z.mod_small by lia.
    destruct (Z.ltb_spec (u / 2 + 1) 2147483648); lia.
  - destruct (Z.ltb_spec (- (u / 2) mod 4294967296) 2147483648); lia.
Qed.

(** X21. In a buffer of less than [2^32] bytes whose [bufLen] is its
    length, from a cursor with [posByte >= 0] and a bit offset in
    [[0, 8)], the signed Exp-Golomb read inverts the signed mapping: for
    [s] with [|s| <= 2^30 - 1], when the code of the unsigned value
    [2 s - 1] (for [s > 0]) or [- 2 s] (for [s <= 0]) lies at the cursor,
    the read returns [s] and leaves the cursor just after the code. *)
Theorem getSGlm_decodes_signed (st : BinParser) (s : Z) :
  0 <= posByte st -> 0 <= posBit st < 8 ->
  buffer_ok st -> bufLen st < 2 ^ 32 ->
  - (2 ^ 30 - 1) <= s <= 2 ^ 30 - 1 ->
  bits_at (buf st) (bit_offset st) (glm_encode (unsigned_of s)) ->
  getSGlm st
  = Def (Ok s (at_offset st (bit_offset st
                             + Z.of_nat (length (glm_encode (unsigned_of s)))))).
Proof.
  intros Hp Hb Hbuf Hsmall Hs Hbits.
  assert (Hu : 0 <= unsigned_of s <= 2 ^ 31 - 2).
  { unfold unsigned_of. change (2 ^ 30) with 1073741824 in Hs. pow_literals.
    destruct (Z.ltb_spec 0 s); lia. }
  rewrite (getSGlm_value st _ (unsigned_of s) Hu
             (getGlm_on_encode st _ Hp Hb Hbuf Hsmall Hu Hbits)).
  rewrite signed_of_unsigned_of. reflexivity.
Qed.

(** [00100] is the code of 3, the unsigned value of [+2]. *)
Lemma getSGlm_decodes_signed_witness :
  getSGlm (mkBinParser [32] 1 0 0) = Def (Ok 2 (mkBinParser [32] 1 0 5)).
Proof.
  apply (getSGlm_decodes_signed (mkBinParser [32] 1 0 0) 2
           ltac:(simpl; lia) ltac:(simpl; lia) eq_refl ltac:(simpl; lia)
           ltac:(simpl; lia) ltac:(vm_compute; repeat split)).
Defined.

(** X22. Whatever the state of the cursor, the Exp-Golomb reads never
    read the buffer outside its [bufLen] bytes: both loops test
    [posByte < bufLen] before each access. *)
Theorem getGlm_never_reads_outside (st : BinParser) :
  buffer_ok st ->
  getGlm st <> Undef OutOfBounds /\ getSGlm st <> Undef OutOfBounds.
Proof.
  intros Hbuf. pose proof (getGlm_inside st Hbuf) as H. split; [exact H |].
  unfold getSGlm, getSGlm_from. fold (getGlm st). destruct (getGlm st) as [[v s | c s] | u |]; cbn [bind];
    try discriminate; [| congruence].
  destruct (negb _); discriminate.
Qed.

(** A cursor past the end, with a bit offset out of range. *)
Lemma getGlm_never_reads_outside_witness :
  getGlm (mkBinParser [1; 2] 2 7 9) <> Undef OutOfBounds /\
  getSGlm (mkBinParser [1; 2] 2 7 9) <> Undef OutOfBounds.
Proof.
  apply (getGlm_never_reads_outside (mkBinParser [1; 2] 2 7 9)). reflexivity.
Defined.

(** X23. In a buffer of less than [2^32] bytes the prefix scan of the
    Exp-Golomb reads ends, from every state of the cursor and whatever
    the bits of the buffer: it leaves its loop within [8 * bufLen + 2]
    tests of the loop condition.  (One test more than the bits of the
    buffer plus one: from a bit offset of 8 or more the first step may
    stay in the byte it started in.) *)
Theorem getGlm_scan_ends (st : BinParser) :
  bufLen st < 2 ^ 32 ->
  (forall fuel : nat,
     Z.max 0 (8 * bufLen st) + 2 <= Z.of_nat fuel ->
     getGlm_from fuel st <> Diverge /\ getSGlm_from fuel st <> Diverge) /\
  getGlm st <> Diverge /\ getSGlm st <> Diverge.
Proof.
  intros Hsmall.
  assert (H : forall fuel : nat,
            Z.max 0 (8 * bufLen st) + 2 <= Z.of_nat fuel ->
            getGlm_from fuel st <> Diverge /\ getSGlm_from fuel st <> Diverge).
  { intros fuel Hfuel.
    pose proof (getGlm_from_terminates fuel st Hsmall Hfuel) as H.
    split; [exact H |]. unfold getSGlm_from.
    destruct (getGlm_from fuel st) as [[v s | c s] | u |]; cbn [bind];
      try discriminate; [| congruence].
    destruct (negb _); discriminate. }
  split; [exact H |].
  apply (H (glm_fuel st)). unfold glm_fuel. lia.
Qed.

(** One byte of zeros, read from the bit offset [2^32 - 1]: the scan
    makes ten tests. *)
Lemma getGlm_scan_ends_witness :
  (forall fuel : nat,
     Z.max 0 (8 * 1) + 2 <= Z.of_nat fuel ->
     getGlm_from fuel (mkBinParser [0] 1 0 4294967295) <> Diverge /\
     getSGlm_from fuel (mkBinParser [0] 1 0 4294967295) <> Diverge) /\
  getGlm (mkBinParser [0] 1 0 4294967295) <> Diverge /\
  getSGlm (mkBinParser [0] 1 0 4294967295) <> Diverge.
Proof.
  apply (getGlm_scan_ends (mkBinParser [0] 1 0 4294967295)). simpl. lia.
Defined.

(** The bound is reached: from that state nine tests are not enough. *)
Lemma getGlm_scan_bound_reached :
  getGlm_from 9 (mkBinParser [0] 1 0 4294967295) = Diverge /\
  getGlm_from 10 (mkBinParser [0] 1 0 4294967295)
  = Def (Err 1 (mkBinParser [0] 1 0 4294967295)).
Proof. split; vm_compute; reflexivity. Qed.

(** ** The reader as a whole *)

(** X24. From a state satisfying the cursor invariant, over a buffer of
    [bufLen] bytes, no public operation reads the buffer outside those
    bytes, as long as the capacity check of the read computes without
    wrap-around ([posBit + bits] and the next byte position below
    [2^32]). *)
Theorem no_read_outside_buffer (o : op) (st : BinParser) :
  op_typed o -> cursor_inv st -> buffer_ok st -> exact_capacity o st ->
  run o st <> Undef OutOfBounds.
Proof. exact (reads_inside_within_exact_capacity o st). Qed.

Lemma no_read_outside_buffer_witness :
  run (OpGetBytes 7) (mkBinParser [1; 2; 3] 3 1 0) <> Undef OutOfBounds.
Proof.
  apply (no_read_outside_buffer (OpGetBytes 7) (mkBinParser [1; 2; 3] 3 1 0)).
  - simpl. unfold uint. lia.
  - unfold cursor_inv. simpl. lia.
  - reflexivity.
  - simpl. unfold no_wrap. simpl. vm_compute. reflexivity.
Defined.


